(** * A missile-defence arcade game: the simulation engine of [App.tsx]

    The engine keeps one mutable [GameState] (the React ref [stateRef]) and
    changes it from four callbacks: [initGame], [nextRound],
    [handleCanvasClick] and the per-frame [update], which calls
    [spawnRocket].  This file embeds those callbacks as functions on the
    state and proves what the specification says about them.

    Numbers.  The counters of the game ([score], [ammo], [maxAmmo], [round],
    [rocketsToSpawn]) start from integer constants and only ever change by
    adding or subtracting integers, so they are modelled in [Z].
    Coordinates, progress, speed and radius are JavaScript numbers that the
    code adds, multiplies and compares; they are modelled as exact rationals
    ([Q]), so rounding of IEEE doubles is not part of the model.  The one
    square root of the code stands in a comparison, which is decided on the
    squares ([sqrt_ltb]).  The exception is the scaling of the pointer
    position to the canvas ([canvasPoint]), where the rounding shows in the
    result: there it is a parameter of the model.

    Randomness.  [Math.random()] is an input of the program: the model takes
    the sequence of values it returns as a function [nat -> Q] and keeps in
    the [World] how many of them have been used.

    React setters ([setScore], [setRound], [setGameState]) only mirror fields
    of the state for drawing; they are left out. *)

From Stdlib Require Import ZArith QArith Qabs Qround Lia Lqa.
From stdpp Require Import base decidable relations list strings.

(** ** Data model ([types.ts]) *)

Inductive GameStatus := START | PLAYING | WON | LOST | ROUND_END.

#[global] Instance GameStatus_eq_dec : EqDecision GameStatus.
Proof. solve_decision. Defined.

Record Point := mkPoint { x : Q; y : Q }.

(** [id] is [Math.random().toString(36).substr(2, 9)] in the source: a
    rendering of one random draw.  The model keeps the draw itself. *)
Record EnemyRocket := mkRocket {
  r_id : Q;
  r_pos : Point;
  r_start : Point;
  r_target : Point;
  r_progress : Q;
  r_speed : Q
}.

Record InterceptorMissile := mkMissile {
  m_id : Q;
  m_pos : Point;
  m_start : Point;
  m_target : Point;
  m_progress : Q;
  m_speed : Q;
  sourceTurretIndex : Z
}.

Record Explosion := mkExplosion {
  e_id : Q;
  e_pos : Point;
  radius : Q;
  maxRadius : Q;
  growing : bool;
  finished : bool
}.

Record Turret := mkTurret {
  t_pos : Point;
  ammo : Z;
  maxAmmo : Z;
  t_destroyed : bool
}.

Record City := mkCity {
  c_pos : Point;
  c_destroyed : bool
}.

Record GameState := mkGameState {
  score : Z;
  status : GameStatus;
  rockets : list EnemyRocket;
  missiles : list InterceptorMissile;
  explosions : list Explosion;
  turrets : list Turret;
  cities : list City;
  round : Z;
  rocketsToSpawn : Z
}.

(** ** Constants ([constants.ts]) *)

Definition CANVAS_WIDTH : Q := 800.
Definition CANVAS_HEIGHT : Q := 600.
Definition EXPLOSION_MAX_RADIUS : Q := 40.
Definition EXPLOSION_GROWTH_SPEED : Q := 1.5.
Definition MISSILE_SPEED : Q := 0.02.
Definition ROCKET_SPEED_BASE : Q := 0.001.
Definition ROCKET_SPEED_INC : Q := 0.0002.
Definition WIN_SCORE : Z := 1000.
Definition TURRET_AMMO : list Z := [10; 20; 10]%Z.

(** ** Assignments to the fields of the state *)

Definition set_score (f : Z → Z) (st : GameState) : GameState :=
  mkGameState (f (score st)) (status st) (rockets st) (missiles st)
    (explosions st) (turrets st) (cities st) (round st) (rocketsToSpawn st).

Definition set_status (v : GameStatus) (st : GameState) : GameState :=
  mkGameState (score st) v (rockets st) (missiles st)
    (explosions st) (turrets st) (cities st) (round st) (rocketsToSpawn st).

Definition set_rockets (f : list EnemyRocket → list EnemyRocket)
    (st : GameState) : GameState :=
  mkGameState (score st) (status st) (f (rockets st)) (missiles st)
    (explosions st) (turrets st) (cities st) (round st) (rocketsToSpawn st).

Definition set_missiles (f : list InterceptorMissile → list InterceptorMissile)
    (st : GameState) : GameState :=
  mkGameState (score st) (status st) (rockets st) (f (missiles st))
    (explosions st) (turrets st) (cities st) (round st) (rocketsToSpawn st).

Definition set_explosions (f : list Explosion → list Explosion)
    (st : GameState) : GameState :=
  mkGameState (score st) (status st) (rockets st) (missiles st)
    (f (explosions st)) (turrets st) (cities st) (round st) (rocketsToSpawn st).

Definition set_turrets (f : list Turret → list Turret)
    (st : GameState) : GameState :=
  mkGameState (score st) (status st) (rockets st) (missiles st)
    (explosions st) (f (turrets st)) (cities st) (round st) (rocketsToSpawn st).

Definition set_cities (f : list City → list City)
    (st : GameState) : GameState :=
  mkGameState (score st) (status st) (rockets st) (missiles st)
    (explosions st) (turrets st) (f (cities st)) (round st) (rocketsToSpawn st).

Definition set_round (f : Z → Z) (st : GameState) : GameState :=
  mkGameState (score st) (status st) (rockets st) (missiles st)
    (explosions st) (turrets st) (cities st) (f (round st)) (rocketsToSpawn st).

Definition set_rocketsToSpawn (f : Z → Z) (st : GameState) : GameState :=
  mkGameState (score st) (status st) (rockets st) (missiles st)
    (explosions st) (turrets st) (cities st) (round st) (f (rocketsToSpawn st)).

(** ** The world: the state behind [stateRef] and the random source *)

Record World := mkWorld {
  stateRef : GameState;
  (** number of [Math.random()] calls made so far *)
  drawn : nat
}.

Definition on_state (f : GameState → GameState) (w : World) : World :=
  mkWorld (f (stateRef w)) (drawn w).

(** [a < b] on numbers, as a test. *)
Definition Qltb (a b : Q) : bool := negb (Qle_bool b a).

(** [Math.sqrt(d2) < r], decided without the root: for [d2] a sum of two
    squares this holds exactly when [r] is positive and [d2 < r * r]. *)
Definition sqrt_ltb (d2 r : Q) : bool := Qltb 0 r && Qltb d2 (r * r).

(** ** [Array.prototype.forEach] on an array that the callback may change

    The runtime reads the length once, then for each index [k] below it
    calls the callback on the element that is at [k] at that moment, if
    there is one.  Elements pushed during the walk lie beyond the length
    read at the start; after a [splice] the elements behind the removed one
    move down by one index. *)

Fixpoint forEach_from {St X : Type} (arr : St → list X)
    (callback : X → nat → St → St) (len k : nat) (s : St) : St :=
  match len with
  | O => s
  | S len' =>
      forEach_from arr callback len' (S k)
        (match arr s !! k with
         | Some v => callback v k s
         | None => s
         end)
  end.

Definition forEach {St X : Type} (arr : St → list X)
    (callback : X → nat → St → St) (s : St) : St :=
  forEach_from arr callback (length (arr s)) 0 s.

(** ** [initGame] *)

Definition initGame : GameState :=
  let turrets :=
    [ mkTurret (mkPoint 50 (CANVAS_HEIGHT - 40))
        (nth 0 TURRET_AMMO 0%Z) (nth 0 TURRET_AMMO 0%Z) false;
      mkTurret (mkPoint (CANVAS_WIDTH / 2) (CANVAS_HEIGHT - 40))
        (nth 1 TURRET_AMMO 0%Z) (nth 1 TURRET_AMMO 0%Z) false;
      mkTurret (mkPoint (CANVAS_WIDTH - 50) (CANVAS_HEIGHT - 40))
        (nth 2 TURRET_AMMO 0%Z) (nth 2 TURRET_AMMO 0%Z) false ] in
  let cities :=
    [ mkCity (mkPoint 150 (CANVAS_HEIGHT - 20)) false;
      mkCity (mkPoint 250 (CANVAS_HEIGHT - 20)) false;
      mkCity (mkPoint 350 (CANVAS_HEIGHT - 20)) false;
      mkCity (mkPoint 450 (CANVAS_HEIGHT - 20)) false;
      mkCity (mkPoint 550 (CANVAS_HEIGHT - 20)) false;
      mkCity (mkPoint 650 (CANVAS_HEIGHT - 20)) false ] in
  {| score := 0;
     status := PLAYING;
     rockets := [];
     missiles := [];
     explosions := [];
     turrets := turrets;
     cities := cities;
     round := 1;
     rocketsToSpawn := 3 |}.

(** ** [nextRound]

    The [forEach] over the turrets changes no array, only the turret it is
    at and the local [ammoBonus]: the bonus is a fold and the refill a map. *)

Definition refill (t : Turret) : Turret :=
  if t_destroyed t then t
  else mkTurret (t_pos t) (maxAmmo t) (maxAmmo t) (t_destroyed t).

Definition ammoBonus (ts : list Turret) : Z :=
  fold_left (λ bonus t, if t_destroyed t then bonus else bonus + ammo t * 5)%Z
    ts 0%Z.

Definition nextRound (st : GameState) : GameState :=
  let bonus := ammoBonus (turrets st) in
  let st := set_turrets (map refill) st in
  let st := set_score (λ s, s + bonus)%Z st in
  let st := set_round (λ r, r + 1)%Z st in
  let st := set_rocketsToSpawn (λ _, 3 + round st * 1)%Z st in
  set_status PLAYING st.

Section Engine.

(** The values that successive calls of [Math.random()] return. *)
Variable Math_random : nat → Q.

Local Open Scope Q_scope.

Definition random (w : World) : Q * World :=
  (Math_random (drawn w), mkWorld (stateRef w) (S (drawn w))).

(** ** [spawnRocket]

    [targets[Math.floor(...)]] is [undefined] for an index outside the
    array, and reading [.pos] of it throws: the callback stops there with
    the state as changed so far.  This cannot happen for draws in [0, 1). *)

Definition spawnRocket (w : World) : World :=
  let state := stateRef w in
  if negb (bool_decide (status state = PLAYING))
     || (rocketsToSpawn state <=? 0)%Z then w
  else
    let w := on_state (set_rocketsToSpawn (λ n, n - 1)%Z) w in
    let '(u, w) := random w in
    let start := mkPoint (u * CANVAS_WIDTH) 0 in
    let targets :=
      map c_pos (filter (λ c, c_destroyed c = false) (cities state))
      ++ map t_pos (filter (λ t, t_destroyed t = false) (turrets state)) in
    if (length targets =? 0)%nat then w
    else
      let '(u, w) := random w in
      let i := Qfloor (u * inject_Z (Z.of_nat (length targets))) in
      match (if (i <? 0)%Z then None else targets !! Z.to_nat i) with
      | None => w
      | Some target =>
          let '(id, w) := random w in
          let '(u, w) := random w in
          let newRocket :=
            {| r_id := id;
               r_pos := mkPoint (x start) (y start);
               r_start := start;
               r_target := target;
               r_progress := 0;
               r_speed := ROCKET_SPEED_BASE
                          + inject_Z (round state - 1) * ROCKET_SPEED_INC
                          + u * 0.0005 |} in
          on_state (set_rockets (λ rs, rs ++ [newRocket])) w
      end.

(** ** [handleCanvasClick]

    The model starts at the point [(x, y)] in canvas coordinates that the
    handler computes from the event; reading the event and the canvas
    rectangle belongs to the presentation layer.  The [forEach] over the
    turrets changes only the locals [bestTurretIndex] and [minDist]:
    [closestTurret] walks the list with the index [i] and the pair of the
    two locals, [bestTurretIndex] starting at [-1] and [minDist] at
    [Infinity], here [None]. *)

Fixpoint closestTurret (cx : Q) (ts : list Turret) (i : Z)
    (best : Z * option Q) : Z * option Q :=
  match ts with
  | [] => best
  | t :: ts' =>
      closestTurret cx ts' (i + 1)%Z
        (if negb (t_destroyed t) && (0 <? ammo t)%Z then
           let dist := Qabs (x (t_pos t) - cx) in
           if match snd best with
              | None => true
              | Some minDist => Qltb dist minDist
              end
           then (i, Some dist) else best
         else best)
  end.

Definition handleCanvasClick (click : Point) (w : World) : World :=
  if negb (bool_decide (status (stateRef w) = PLAYING)) then w
  else
    let bestTurretIndex :=
      fst (closestTurret (x click) (turrets (stateRef w)) 0%Z (-1, None)%Z) in
    if negb (bestTurretIndex =? -1)%Z then
      match turrets (stateRef w) !! Z.to_nat bestTurretIndex with
      | None => w
      | Some turret =>
          let turret' :=
            mkTurret (t_pos turret) (ammo turret - 1) (maxAmmo turret)
              (t_destroyed turret) in
          let w :=
            on_state (set_turrets <[Z.to_nat bestTurretIndex := turret']>) w in
          let '(id, w) := random w in
          let missile :=
            {| m_id := id;
               m_pos := mkPoint (x (t_pos turret')) (y (t_pos turret'));
               m_start := mkPoint (x (t_pos turret')) (y (t_pos turret'));
               m_target := mkPoint (x click) (y click);
               m_progress := 0;
               m_speed := MISSILE_SPEED;
               sourceTurretIndex := bestTurretIndex |} in
          on_state (set_missiles (λ ms, ms ++ [missile])) w
      end
    else w.

(** ** [update]

    The callbacks of the loops have no name in the source; here they are
    [updateRocket], [updateMissile], [updateExplosion] and, for the inner
    loop over the rockets, [collide].  [moveRocket], [moveMissile] and
    [pulse] are the assignments to the visited element with which each
    callback starts, [newExplosion] the object literal that is pushed.  The
    loops over cities and turrets at an impact change fields of the visited
    element only and are maps ([hitCity], [hitTurret]).  [checkOutcome] is
    the straight-line end of [update], from step 4 on. *)

Definition newExplosion (id : Q) (pos : Point) (maxRadius : Q) : Explosion :=
  {| e_id := id;
     e_pos := mkPoint (x pos) (y pos);
     radius := 0;
     maxRadius := maxRadius;
     growing := true;
     finished := false |}.

Definition hitCity (target : Point) (c : City) : City :=
  if negb (c_destroyed c)
     && Qltb (Qabs (x (c_pos c) - x target)) 10
     && Qltb (Qabs (y (c_pos c) - y target)) 10
  then mkCity (c_pos c) true else c.

Definition hitTurret (target : Point) (t : Turret) : Turret :=
  if negb (t_destroyed t)
     && Qltb (Qabs (x (t_pos t) - x target)) 20
     && Qltb (Qabs (y (t_pos t) - y target)) 20
  then mkTurret (t_pos t) (ammo t) (maxAmmo t) true else t.

(** 1. the callback of [state.rockets.forEach] *)
Definition moveRocket (r : EnemyRocket) : EnemyRocket :=
  let progress := r_progress r + r_speed r in
  {| r_id := r_id r;
     r_pos :=
       mkPoint
         (x (r_start r) + (x (r_target r) - x (r_start r)) * progress)
         (y (r_start r) + (y (r_target r) - y (r_start r)) * progress);
     r_start := r_start r;
     r_target := r_target r;
     r_progress := progress;
     r_speed := r_speed r |}.

Definition updateRocket (r : EnemyRocket) (index : nat) (w : World) : World :=
  let r := moveRocket r in
  let w := on_state (set_rockets <[index := r]>) w in
  if Qle_bool 1 (r_progress r) then
    let '(id, w) := random w in
    let w :=
      on_state (set_explosions
        (λ es, es ++ [newExplosion id (r_target r) EXPLOSION_MAX_RADIUS])) w in
    let w := on_state (set_cities (map (hitCity (r_target r)))) w in
    let w := on_state (set_turrets (map (hitTurret (r_target r)))) w in
    on_state (set_rockets (delete index)) w
  else w.

(** 2. the callback of [state.missiles.forEach] *)
Definition moveMissile (m : InterceptorMissile) : InterceptorMissile :=
  let progress := m_progress m + m_speed m in
  {| m_id := m_id m;
     m_pos :=
       mkPoint
         (x (m_start m) + (x (m_target m) - x (m_start m)) * progress)
         (y (m_start m) + (y (m_target m) - y (m_start m)) * progress);
     m_start := m_start m;
     m_target := m_target m;
     m_progress := progress;
     m_speed := m_speed m;
     sourceTurretIndex := sourceTurretIndex m |}.

Definition updateMissile (m : InterceptorMissile) (index : nat) (w : World)
    : World :=
  let m := moveMissile m in
  let w := on_state (set_missiles <[index := m]>) w in
  if Qle_bool 1 (m_progress m) then
    let '(id, w) := random w in
    let w :=
      on_state (set_explosions
        (λ es, es ++ [newExplosion id (m_target m) EXPLOSION_MAX_RADIUS])) w in
    on_state (set_missiles (delete index)) w
  else w.

(** 3. the callback of [state.explosions.forEach], and inside it the
    callback of [state.rockets.forEach] *)
Definition pulse (e : Explosion) : Explosion :=
  if growing e then
    let radius := radius e + EXPLOSION_GROWTH_SPEED in
    mkExplosion (e_id e) (e_pos e) radius (maxRadius e)
      (if Qle_bool (maxRadius e) radius then false else growing e)
      (finished e)
  else
    let radius := radius e - EXPLOSION_GROWTH_SPEED in
    mkExplosion (e_id e) (e_pos e) radius (maxRadius e) (growing e)
      (if Qle_bool radius 0 then true else finished e).

Definition collide (e : Explosion) (r : EnemyRocket) (rIdx : nat) (w : World)
    : World :=
  let dist2 := (x (r_pos r) - x (e_pos e)) ^ 2
               + (y (r_pos r) - y (e_pos e)) ^ 2 in
  if sqrt_ltb dist2 (radius e) then
    let w := on_state (set_score (λ s, s + 20)%Z) w in
    let '(id, w) := random w in
    let w :=
      on_state (set_explosions
        (λ es, es ++ [newExplosion id (r_pos r) (EXPLOSION_MAX_RADIUS / 2)]))
        w in
    on_state (set_rockets (delete rIdx)) w
  else w.

Definition updateExplosion (e : Explosion) (index : nat) (w : World) : World :=
  let e := pulse e in
  let w := on_state (set_explosions <[index := e]>) w in
  if finished e then on_state (set_explosions (delete index)) w
  else forEach (λ w, rockets (stateRef w)) (collide e) w.

(** 4. game over, win, round end; then the spawn *)
Definition checkOutcome (w : World) : World :=
  let allTurretsDestroyed := forallb t_destroyed (turrets (stateRef w)) in
  let w := if allTurretsDestroyed then on_state (set_status LOST) w else w in
  if (WIN_SCORE <=? score (stateRef w))%Z then on_state (set_status WON) w
  else
    let state := stateRef w in
    let w :=
      if (rocketsToSpawn state =? 0)%Z
         && (length (rockets state) =? 0)%nat
         && (length (explosions state) =? 0)%nat
      then on_state (set_status ROUND_END) w else w in
    if (0 <? rocketsToSpawn (stateRef w))%Z then
      let '(u, w') := random w in
      if Qltb u (0.007 + inject_Z (round (stateRef w)) * 0.002)
      then spawnRocket w' else w'
    else w.

Definition update (w : World) : World :=
  if negb (bool_decide (status (stateRef w) = PLAYING)) then w
  else
    let w := forEach (λ w, rockets (stateRef w)) updateRocket w in
    let w := forEach (λ w, missiles (stateRef w)) updateMissile w in
    let w := forEach (λ w, explosions (stateRef w)) updateExplosion w in
    checkOutcome w.

(** ** Sessions: what the page can do to the engine *)

Inductive Action :=
| InitGame
| NextRound
| CanvasClick (click : Point)
| Frame.

Definition perform (w : World) (a : Action) : World :=
  match a with
  | InitGame => on_state (λ _, initGame) w
  | NextRound => on_state nextRound w
  | CanvasClick click => handleCanvasClick click w
  | Frame => update w
  end.

(** The state the ref is created with, before any game. *)
Definition boot : World :=
  {| stateRef :=
       {| score := 0; status := START; rockets := []; missiles := [];
          explosions := []; turrets := []; cities := []; round := 1;
          rocketsToSpawn := 3 |};
     drawn := 0%nat |}.

Definition play (acts : list Action) : World := fold_left perform acts boot.

End Engine.

(** * The page around the engine *)

(** ** What the page offers

    The page shows the button that calls [initGame] on the overlays for
    [START] and for [WON] and [LOST], and the button that calls [nextRound]
    on the overlay for [ROUND_END]; the canvas takes clicks and the game
    loop runs in every status.  The overlays follow the React state
    [gameState], which every callback sets together with the status of the
    ref, so the model reads the status. *)

Definition offered (s : GameStatus) (a : Action) : bool :=
  match a with
  | InitGame =>
      bool_decide (s = START) || bool_decide (s = WON) || bool_decide (s = LOST)
  | NextRound => bool_decide (s = ROUND_END)
  | CanvasClick _ => true
  | Frame => true
  end.

Fixpoint guided_from (Math_random : nat → Q) (w : World)
    (acts : list Action) : bool :=
  match acts with
  | [] => true
  | a :: acts =>
      offered (status (stateRef w)) a
      && guided_from Math_random (perform Math_random w a) acts
  end.

(** The sessions a player can have: every action is offered when it is
    taken. *)
Definition guided (Math_random : nat → Q) (acts : list Action) : bool :=
  guided_from Math_random boot acts.

(** ** From the pointer to the canvas

    The first lines of [handleCanvasClick]: the guard on the status, the
    canvas, the client position of the mouse or of the first touch, and its
    scaling from the displayed rectangle to the 800 x 600 canvas.  The rest
    of the handler is [handleCanvasClick] above.  A missing canvas returns;
    a touch event without touches throws at [e.touches[0].clientX], before
    any change of the state.

    Rounding.  The scaling is two subtractions, two divisions and two
    multiplications of doubles, and their rounding shows in the result: for
    a canvas displayed 352 pixels wide, the pointer on its right edge is
    taken to 800.0000000000001.  So here each operation is followed by the
    rounding [fl], a parameter of the model; rounding to the nearest double
    is one such function.  The properties below are proved for every
    rounding that keeps the order of numbers and keeps 0.  A rectangle of
    width or height 0 scales to [Infinity] or [NaN], which are not
    modelled; the properties ask for a rectangle with positive sides. *)

Record DOMRect := mkRect {
  rect_left : Q;
  rect_top : Q;
  rect_width : Q;
  rect_height : Q
}.

Inductive PointerEvent :=
| MouseEvent (clientX clientY : Q)
| TouchEvent (touches : list (Q * Q)).

Definition clientPosition (e : PointerEvent) : option (Q * Q) :=
  match e with
  | TouchEvent touches => touches !! 0%nat
  | MouseEvent clientX clientY => Some (clientX, clientY)
  end.

Definition canvasPoint (fl : Q → Q) (rect : DOMRect) (clientX clientY : Q)
    : Point :=
  let scaleX := fl (CANVAS_WIDTH / rect_width rect)%Q in
  let scaleY := fl (CANVAS_HEIGHT / rect_height rect)%Q in
  mkPoint (fl (fl (clientX - rect_left rect) * scaleX))%Q
    (fl (fl (clientY - rect_top rect) * scaleY))%Q.

Definition handleCanvasEvent (Math_random : nat → Q) (fl : Q → Q)
    (canvas : option DOMRect) (e : PointerEvent) (w : World) : World :=
  if negb (bool_decide (status (stateRef w) = PLAYING)) then w
  else
    match canvas with
    | None => w
    | Some rect =>
        match clientPosition e with
        | None => w
        | Some (clientX, clientY) =>
            handleCanvasClick Math_random
              (canvasPoint fl rect clientX clientY) w
        end
    end.

(** A rounding to try the model with: every number goes down to the next
    multiple of 2^-20. *)
Definition toGrid (q : Q) : Q :=
  (inject_Z (Qfloor (q * 1048576)) / 1048576)%Q.

(** ** [draw]

    The calls that [draw] makes on the 2D context of the canvas, in order,
    when the canvas and its context are there (without them it returns at
    once).  Assignments to [fillStyle] and [strokeStyle] are listed like
    calls.  The two angles of [arc] are [0] and [Math.PI * 2]; they are
    kept as multiples of pi.  The loops of [draw] change nothing: each is
    the concatenation of what its callback draws. *)

Definition COLORS_BG : string := "#0a0a0a".
Definition COLORS_CITY : string := "#3b82f6".
Definition COLORS_TURRET : string := "#10b981".
Definition COLORS_ROCKET : string := "#ef4444".
Definition COLORS_MISSILE : string := "#f59e0b".
Definition COLORS_EXPLOSION : string := "rgba(245, 158, 11, 0.6)".
Definition COLORS_GROUND : string := "#1f2937".

Inductive CanvasOp :=
| fillStyle (color : string)
| strokeStyle (color : string)
| fillRect (x y w h : Q)
| beginPath
| closePath
| moveTo (x y : Q)
| lineTo (x y : Q)
| arc (x y radius : Q) (startAngle_by_pi endAngle_by_pi : Q)
| fill
| stroke
| setLineDash (segments : list Q).

Definition ammoWidth (t : Turret) : Q :=
  (40 * (inject_Z (ammo t) / inject_Z (maxAmmo t)))%Q.

Definition drawCity (c : City) : list CanvasOp :=
  if negb (c_destroyed c) then
    [ fillStyle COLORS_CITY;
      fillRect (x (c_pos c) - 15) (y (c_pos c) - 15) 30 15;
      fillStyle "#fde047";
      fillRect (x (c_pos c) - 10) (y (c_pos c) - 12) 4 4;
      fillRect (x (c_pos c) + 6) (y (c_pos c) - 12) 4 4 ]%Q
  else [].

Definition drawTurret (t : Turret) : list CanvasOp :=
  if negb (t_destroyed t) then
    [ fillStyle COLORS_TURRET;
      beginPath;
      moveTo (x (t_pos t) - 20) (y (t_pos t));
      lineTo (x (t_pos t) + 20) (y (t_pos t));
      lineTo (x (t_pos t)) (y (t_pos t) - 30);
      closePath;
      fill;
      fillStyle "#374151";
      fillRect (x (t_pos t) - 20) (y (t_pos t) + 5) 40 4;
      fillStyle COLORS_TURRET;
      fillRect (x (t_pos t) - 20) (y (t_pos t) + 5) (ammoWidth t) 4 ]%Q
  else [].

Definition drawRocket (r : EnemyRocket) : list CanvasOp :=
  [ strokeStyle COLORS_ROCKET;
    setLineDash [2; 2];
    beginPath;
    moveTo (x (r_start r)) (y (r_start r));
    lineTo (x (r_pos r)) (y (r_pos r));
    stroke;
    setLineDash [];
    fillStyle COLORS_ROCKET;
    beginPath;
    arc (x (r_pos r)) (y (r_pos r)) 2 0 2;
    fill ]%Q.

Definition drawMissile (m : InterceptorMissile) : list CanvasOp :=
  [ strokeStyle COLORS_MISSILE;
    beginPath;
    moveTo (x (m_start m)) (y (m_start m));
    lineTo (x (m_pos m)) (y (m_pos m));
    stroke;
    strokeStyle COLORS_MISSILE;
    beginPath;
    moveTo (x (m_target m) - 5) (y (m_target m) - 5);
    lineTo (x (m_target m) + 5) (y (m_target m) + 5);
    moveTo (x (m_target m) + 5) (y (m_target m) - 5);
    lineTo (x (m_target m) - 5) (y (m_target m) + 5);
    stroke ]%Q.

Definition drawExplosion (e : Explosion) : list CanvasOp :=
  [ fillStyle COLORS_EXPLOSION;
    beginPath;
    arc (x (e_pos e)) (y (e_pos e)) (radius e) 0 2;
    fill ]%Q.

Definition draw (state : GameState) : list CanvasOp :=
  [ fillStyle COLORS_BG;
    fillRect 0 0 CANVAS_WIDTH CANVAS_HEIGHT;
    fillStyle COLORS_GROUND;
    fillRect 0 (CANVAS_HEIGHT - 10) CANVAS_WIDTH 10 ]%Q
  ++ concat (map drawCity (cities state))
  ++ concat (map drawTurret (turrets state))
  ++ concat (map drawRocket (rockets state))
  ++ concat (map drawMissile (missiles state))
  ++ concat (map drawExplosion (explosions state)).

(** A call the canvas accepts: [arc] throws for a negative radius. *)
Definition accepted (op : CanvasOp) : Prop :=
  match op with
  | arc _ _ radius _ _ => (0 <= radius)%Q
  | _ => True
  end.

(** [gameLoop]: one frame of the engine, then the picture of the state. *)
Definition gameLoop (Math_random : nat → Q) (w : World)
    : World * list CanvasOp :=
  let w := update Math_random w in
  (w, draw (stateRef w)).

(** What the footer of the page shows: cities and turrets not destroyed. *)
Definition citiesOnline (st : GameState) : nat :=
  length (filter (λ c, c_destroyed c = false) (cities st)).

Definition batteriesActive (st : GameState) : nat :=
  length (filter (λ t, t_destroyed t = false) (turrets st)).

(** * The vocabulary of the properties *)

Local Open Scope Q_scope.

(** ** The elementary changes the three loops of a frame make

    The three [forEach] loops of [update] are a sequence of the assignments
    below, whatever the order in which the indices are visited. *)

Inductive mutation (st : GameState) : GameState → Prop :=
| mut_move_rocket i r :
    rockets st !! i = Some r →
    mutation st (set_rockets <[i := moveRocket r]> st)
| mut_remove_rocket i :
    mutation st (set_rockets (delete i) st)
| mut_move_missile i m :
    missiles st !! i = Some m →
    mutation st (set_missiles <[i := moveMissile m]> st)
| mut_remove_missile i :
    mutation st (set_missiles (delete i) st)
| mut_explode id pos m :
    m = EXPLOSION_MAX_RADIUS ∨ m = EXPLOSION_MAX_RADIUS / 2 →
    mutation st (set_explosions (λ es, es ++ [newExplosion id pos m]) st)
| mut_pulse i e :
    explosions st !! i = Some e →
    mutation st
      (if finished (pulse e)
       then set_explosions (delete i) (set_explosions <[i := pulse e]> st)
       else set_explosions <[i := pulse e]> st)
| mut_hit_cities target :
    mutation st (set_cities (map (hitCity target)) st)
| mut_hit_turrets target :
    mutation st (set_turrets (map (hitTurret target)) st)
| mut_kill i r id :
    rockets st !! i = Some r →
    mutation st
      (set_rockets (delete i)
         (set_explosions
            (λ es, es ++ [newExplosion id (r_pos r) (EXPLOSION_MAX_RADIUS / 2)])
            (set_score (λ s, s + 20)%Z st))).

Definition evolves (w w' : World) : Prop :=
  rtc mutation (stateRef w) (stateRef w').

(** The rocket that [spawnRocket] pushes, from the state and its draws. *)
Definition launched (st : GameState) (id ux u : Q) (target : Point)
    : EnemyRocket :=
  {| r_id := id;
     r_pos := mkPoint (ux * CANVAS_WIDTH) 0;
     r_start := mkPoint (ux * CANVAS_WIDTH) 0;
     r_target := target;
     r_progress := 0;
     r_speed := ROCKET_SPEED_BASE
                + inject_Z (round st - 1) * ROCKET_SPEED_INC
                + u * 0.0005 |}.

(** What the end of a frame (outcome and spawn) may do to a state: the
    status and the spawn counter change freely, at most one rocket is
    appended, everything else stays. *)
Definition settled (Math_random : nat → Q) (st st' : GameState) : Prop :=
  score st' = score st
  ∧ missiles st' = missiles st
  ∧ explosions st' = explosions st
  ∧ turrets st' = turrets st
  ∧ cities st' = cities st
  ∧ round st' = round st
  ∧ (rockets st' = rockets st
     ∨ ∃ i j k target,
         rockets st' =
           rockets st
           ++ [launched st (Math_random i) (Math_random j) (Math_random k)
                 target]).

(** ** What holds of every state of a session, whatever the draws *)

Definition stocked (t : Turret) : Prop := (0 <= ammo t <= maxAmmo t)%Z.

Definition bounded (e : Explosion) : Prop :=
  0 <= radius e
  ∧ radius e < maxRadius e + EXPLOSION_GROWTH_SPEED
  ∧ (growing e = true → radius e < maxRadius e).

Record sound (st : GameState) : Prop := {
  sound_turrets : Forall stocked (turrets st);
  sound_explosions : Forall bounded (explosions st)
}.

(** ** The turret that [handleCanvasClick] picks, and what firing does *)

Definition eligible (t : Turret) : Prop :=
  t_destroyed t = false ∧ (0 < ammo t)%Z.

#[global] Instance eligible_dec t : Decision (eligible t).
Proof. unfold eligible. apply _. Defined.

Definition dist (cx : Q) (t : Turret) : Q := Qabs (x (t_pos t) - cx).

(** [turrets[j]] is [t], an eligible turret, no eligible turret is closer
    and every eligible turret stored before it is farther. *)
Definition chosen (cx : Q) (ts : list Turret) (j : nat) (t : Turret) : Prop :=
  ts !! j = Some t
  ∧ eligible t
  ∧ (∀ j' t', ts !! j' = Some t' → eligible t' → dist cx t <= dist cx t')
  ∧ (∀ j' t', ts !! j' = Some t' → eligible t' → (j' < j)%nat →
       dist cx t < dist cx t').

Definition scanned (cx : Q) (pre : list Turret) (best : Z * option Q) : Prop :=
  (best = ((-1)%Z, None) ∧ Forall (λ t, ¬ eligible t) pre)
  ∨ (∃ j t, best = (Z.of_nat j, Some (dist cx t)) ∧ chosen cx pre j t).

(** The state after turret [j], which is [t], has fired at [click]. *)
Definition fired (Math_random : nat → Q) (click : Point) (w : World)
    (j : nat) (t : Turret) : World :=
  {| stateRef :=
       set_missiles
         (λ ms, ms ++ [ {| m_id := Math_random (drawn w);
                           m_pos := t_pos t;
                           m_start := t_pos t;
                           m_target := click;
                           m_progress := 0;
                           m_speed := MISSILE_SPEED;
                           sourceTurretIndex := Z.of_nat j |} ])
         (set_turrets
            <[j := mkTurret (t_pos t) (ammo t - 1) (maxAmmo t) (t_destroyed t)]>
            (stateRef w));
     drawn := S (drawn w) |}.

(** ** Projectiles on their course *)

Definition interpolates (start target pos : Point) (progress : Q) : Prop :=
  x pos == x start + (x target - x start) * progress
  ∧ y pos == y start + (y target - y start) * progress.

Definition rocket_flying (r : EnemyRocket) : Prop :=
  interpolates (r_start r) (r_target r) (r_pos r) (r_progress r)
  ∧ 0 <= r_speed r.

Definition missile_flying (m : InterceptorMissile) : Prop :=
  interpolates (m_start m) (m_target m) (m_pos m) (m_progress m)
  ∧ 0 <= m_speed m.

Record on_course (st : GameState) : Prop := {
  course_rockets : Forall rocket_flying (rockets st);
  course_missiles : Forall missile_flying (missiles st);
  course_round : (1 <= round st)%Z
}.

(** [r'] is the rocket [r] later in its flight. *)
Definition rocket_descends (r r' : EnemyRocket) : Prop :=
  r_id r' = r_id r ∧ r_start r' = r_start r ∧ r_target r' = r_target r
  ∧ r_speed r' = r_speed r ∧ r_progress r <= r_progress r'.

Definition missile_descends (m m' : InterceptorMissile) : Prop :=
  m_id m' = m_id m ∧ m_start m' = m_start m ∧ m_target m' = m_target m
  ∧ m_speed m' = m_speed m ∧ m_progress m <= m_progress m'.

(** [now] are projectiles of [old] later in their flight, under the
    relation [R]: different ones come from different ones, and they stand
    in the same order. *)
Definition carried {A} (R : A → A → Prop) (old now : list A) : Prop :=
  ∃ from, sublist from old ∧ Forall2 R from now.

(** The projectiles of [st'] are projectiles of [st] later in their
    flight. *)
Definition flown (st st' : GameState) : Prop :=
  carried rocket_descends (rockets st) (rockets st')
  ∧ carried missile_descends (missiles st) (missiles st').

(** The projectile [a] was created after [n] draws had been made: its id
    is a later draw. *)
Definition born (Math_random : nat → Q) {A} (id : A → Q) (n : nat) (a : A)
    : Prop :=
  ∃ i, (n <= i)%nat ∧ id a = Math_random i.

(** The rockets that the action [a] adds to the world [w]: none, or, in a
    frame, the one rocket that [spawnRocket] launches, at its start, with
    progress 0 and an id drawn in that frame. *)
Definition spawned (Math_random : nat → Q) (w : World) (a : Action)
    (fresh : list EnemyRocket) : Prop :=
  fresh = []
  ∨ (a = Frame
     ∧ ∃ i j k target,
         (drawn w <= i)%nat
         ∧ fresh = [launched (stateRef w) (Math_random i) (Math_random j)
                      (Math_random k) target]).

(** The missiles that the action [a] adds to the world [w]: none, or, at a
    click, the one missile fired from a turret of the state at the point
    of the click, at its start, with progress 0. *)
Definition shot (Math_random : nat → Q) (w : World) (a : Action)
    (fresh : list InterceptorMissile) : Prop :=
  fresh = []
  ∨ ∃ click j t,
      a = CanvasClick click
      ∧ turrets (stateRef w) !! j = Some t
      ∧ fresh = [ {| m_id := Math_random (drawn w);
                     m_pos := t_pos t;
                     m_start := t_pos t;
                     m_target := click;
                     m_progress := 0;
                     m_speed := MISSILE_SPEED;
                     sourceTurretIndex := Z.of_nat j |} ].

(** ** Score and ammunition *)

(** [k] rockets were shot down on the way from [st] to [st']: each of them
    left the list of rockets and paid 20 points. *)
Definition shot_down (st st' : GameState) (k : nat) : Prop :=
  score st' = (score st + 20 * Z.of_nat k)%Z
  ∧ (length (rockets st') + k <= length (rockets st))%nat.

(** The ammunition of a turret, whatever its other fields. *)
Definition supply (t : Turret) : Z * Z := (ammo t, maxAmmo t).

(** The bonus in the words of the specification: the sum, over the turrets
    that are not destroyed, of the remaining ammo times 5. *)
Definition spec_ammo_bonus (ts : list Turret) : Z :=
  foldr Z.add 0%Z
    (map (λ t, ammo t * 5)%Z (filter (λ t, t_destroyed t = false) ts)).

(** ** Sample inputs *)

(** Draws under which no rocket is ever spawned ([0.5] is above every spawn
    probability of the first rounds). *)
Definition quiet : nat → Q := λ _, 0.5.

(** Draws under which nothing spawns for the first fifty calls and every
    later call spawns, at the left end of the top edge. *)
Definition late_wave : nat → Q := λ n, if (n <? 50)%nat then 0.5 else 0.

(** A game won and lost in the same frame: one turret is left, the second
    rocket is one step from hitting it, the first rocket sits inside a
    growing explosion, and the score is one kill short of [WIN_SCORE]. *)
Definition last_stand : GameState :=
  {| score := 980;
     status := PLAYING;
     rockets :=
       [ mkRocket 0.1 (mkPoint 300 300) (mkPoint 300 0) (mkPoint 300 600)
           0.5 0.001;
         mkRocket 0.2 (mkPoint 400 559.72) (mkPoint 400 0) (mkPoint 400 560)
           0.9995 0.001 ];
     missiles := [];
     explosions := [ mkExplosion 0.3 (mkPoint 300 310) 30 40 true false ];
     turrets :=
       [ mkTurret (mkPoint 50 560) 3 10 true;
         mkTurret (mkPoint 400 560) 5 20 false;
         mkTurret (mkPoint 750 560) 0 10 true ];
     cities := cities initGame;
     round := 1;
     rocketsToSpawn := 0 |}.

(** All turrets already destroyed, nothing in the air, nothing to spawn. *)
Definition all_down : GameState :=
  {| score := 0;
     status := PLAYING;
     rockets := [];
     missiles := [];
     explosions := [];
     turrets := map (hitTurret (mkPoint 50 560))
                  (map (hitTurret (mkPoint 400 560))
                     (map (hitTurret (mkPoint 750 560)) (turrets initGame)));
     cities := cities initGame;
     round := 1;
     rocketsToSpawn := 0 |}.

(** Two rockets, the first one step from its city; two explosions, the
    first one step from its end. *)
Definition impact : EnemyRocket :=
  mkRocket 0.1 (mkPoint 150 579.71) (mkPoint 150 0) (mkPoint 150 580)
    0.9995 0.001.

Definition cruising : EnemyRocket :=
  mkRocket 0.2 (mkPoint 400 280) (mkPoint 400 0) (mkPoint 400 560) 0.5 0.001.

Definition fading : Explosion :=
  mkExplosion 0.3 (mkPoint 700 100) 1.5 40 false false.

Definition swelling : Explosion :=
  mkExplosion 0.4 (mkPoint 600 100) 10 40 true false.

Definition crowded : GameState :=
  {| score := 0;
     status := PLAYING;
     rockets := [impact; cruising];
     missiles := [];
     explosions := [fading; swelling];
     turrets := turrets initGame;
     cities := cities initGame;
     round := 1;
     rocketsToSpawn := 0 |}.

(** Late in a siege, in round 3: every city and two turrets are destroyed,
    five rockets are left to spawn, and the one rocket in the air is one
    step from the last turret. *)
Definition besieged : GameState :=
  {| score := 250;
     status := PLAYING;
     rockets :=
       [ mkRocket 0.5 (mkPoint 750 559.776) (mkPoint 750 0) (mkPoint 750 560)
           0.9996 0.0014 ];
     missiles := [];
     explosions := [];
     turrets :=
       [ mkTurret (mkPoint 50 560) 10 10 true;
         mkTurret (mkPoint 400 560) 20 20 true;
         mkTurret (mkPoint 750 560) 10 10 false ];
     cities := map (λ c, mkCity (c_pos c) true) (cities initGame);
     round := 3;
     rocketsToSpawn := 5 |}.

(** A new game, one interceptor fired at the middle of the screen, and the
    frames until its explosion is at its largest. *)
Definition overshoot : list Action :=
  [InitGame; CanvasClick (mkPoint 400 300)] ++ repeat Frame 76.

(** A whole first round: an interceptor is fired at the top left corner,
    the three rockets of the round spawn there once its explosion has
    started and are shot down, and the explosions die out. *)
Definition first_round : list Action :=
  [InitGame; CanvasClick (mkPoint 0 0)] ++ repeat Frame 110.

(** ** The loops and the end of a frame *)

(** The three loops of [update], in the order of the source. *)
Definition rocketsPass (Math_random : nat → Q) (w : World) : World :=
  forEach (λ w, rockets (stateRef w)) (updateRocket Math_random) w.

Definition missilesPass (Math_random : nat → Q) (w : World) : World :=
  forEach (λ w, missiles (stateRef w)) (updateMissile Math_random) w.

Definition explosionsPass (Math_random : nat → Q) (w : World) : World :=
  forEach (λ w, explosions (stateRef w)) (updateExplosion Math_random) w.

Definition loops (Math_random : nat → Q) (w : World) : World :=
  explosionsPass Math_random
    (missilesPass Math_random (rocketsPass Math_random w)).

(** The one call of [spawnRocket] in the program, at the end of step 4 of
    [update]: [spawnSite w] is the world on which it is made when the world
    after the loops is [w], and [None] when step 4 makes no call (the game
    is won, nothing is left to spawn, or the draw for the chance of a spawn
    is too high). *)
Definition spawnSite (Math_random : nat → Q) (w : World) : option World :=
  let allTurretsDestroyed := forallb t_destroyed (turrets (stateRef w)) in
  let w := if allTurretsDestroyed then on_state (set_status LOST) w else w in
  if (WIN_SCORE <=? score (stateRef w))%Z then None
  else
    let state := stateRef w in
    let w :=
      if (rocketsToSpawn state =? 0)%Z
         && (length (rockets state) =? 0)%nat
         && (length (explosions state) =? 0)%nat
      then on_state (set_status ROUND_END) w else w in
    if (0 <? rocketsToSpawn (stateRef w))%Z then
      let '(u, w') := random Math_random w in
      if Qltb u (0.007 + inject_Z (round (stateRef w)) * 0.002)
      then Some w' else None
    else None.

(** The test of step 4 for the end of a round. *)
Definition roundOver (st : GameState) : bool :=
  (rocketsToSpawn st =? 0)%Z
  && (length (rockets st) =? 0)%nat
  && (length (explosions st) =? 0)%nat.

(** The status that the three tests of step 4 leave in a game in play,
    read in the order in which later assignments win: the score, then the
    end of the round, then the turrets; when none of them applies the game
    stays in play. *)
Definition verdict (st : GameState) : GameStatus :=
  if (WIN_SCORE <=? score st)%Z then WON
  else if roundOver st then ROUND_END
  else if forallb t_destroyed (turrets st) then LOST
  else PLAYING.

(** The positions a new rocket may aim at: [targets] in [spawnRocket]. *)
Definition liveTargets (st : GameState) : list Point :=
  map c_pos (filter (λ c, c_destroyed c = false) (cities st))
  ++ map t_pos (filter (λ t, t_destroyed t = false) (turrets st)).

(** What the status says about the rest of the state. *)
Definition told (st : GameState) : Prop :=
  match status st with
  | START => st = stateRef boot
  | PLAYING => True
  | WON => (WIN_SCORE <= score st)%Z
  | LOST =>
      forallb t_destroyed (turrets st) = true ∧ (score st < WIN_SCORE)%Z
  | ROUND_END =>
      (score st < WIN_SCORE)%Z ∧ rocketsToSpawn st = 0%Z
      ∧ rockets st = [] ∧ explosions st = []
  end.

(** The counters of the waves. *)
Definition counted (st : GameState) : Prop :=
  (1 <= round st ∧ 0 <= rocketsToSpawn st <= 3 + round st)%Z.

(** ** Cities, turrets and what flies between them *)

(** From [st] to [st'] no city and no turret has moved or come back, and no
    turret has changed its [maxAmmo]. *)
Definition persists (st st' : GameState) : Prop :=
  Forall2
    (λ c c', c_pos c' = c_pos c
             ∧ (c_destroyed c = true → c_destroyed c' = true))
    (cities st) (cities st')
  ∧ Forall2
      (λ t t', t_pos t' = t_pos t ∧ maxAmmo t' = maxAmmo t
               ∧ (t_destroyed t = true → t_destroyed t' = true))
      (turrets st) (turrets st').

(** The cities and turrets stand where [initGame] puts them, or there are
    none yet. *)
Definition laid_out (st : GameState) : Prop :=
  (cities st = [] ∧ turrets st = [])
  ∨ (map c_pos (cities st) = map c_pos (cities initGame)
     ∧ map t_pos (turrets st) = map t_pos (turrets initGame)
     ∧ map maxAmmo (turrets st) = map maxAmmo (turrets initGame)).

(** No projectile of the state has arrived. *)
Definition airborne (st : GameState) : Prop :=
  Forall (λ r, r_progress r < 1) (rockets st)
  ∧ Forall (λ m, m_progress m < 1) (missiles st).

(** No projectile of the state has gone or goes backwards. *)
Definition forward (st : GameState) : Prop :=
  Forall (λ r, 0 <= r_progress r ∧ 0 <= r_speed r) (rockets st)
  ∧ Forall (λ m, 0 <= m_progress m ∧ 0 <= m_speed m) (missiles st)
  ∧ (1 <= round st)%Z.

(** Rockets come from the top edge and aim at a city or a turret; missiles
    have the fixed speed and come from the turret their index names. *)
Definition rocket_aimed (st : GameState) (r : EnemyRocket) : Prop :=
  y (r_start r) = 0
  ∧ r_target r ∈ map c_pos (cities st) ++ map t_pos (turrets st).

Definition missile_sourced (st : GameState) (m : InterceptorMissile) : Prop :=
  m_speed m = MISSILE_SPEED
  ∧ (0 <= sourceTurretIndex m)%Z
  ∧ map t_pos (turrets st) !! Z.to_nat (sourceTurretIndex m)
    = Some (m_start m).

Definition aimed (st : GameState) : Prop :=
  Forall (rocket_aimed st) (rockets st)
  ∧ Forall (missile_sourced st) (missiles st).

(** Explosions of the state are not finished and have one of the two
    sizes. *)
Definition burning (e : Explosion) : Prop :=
  finished e = false
  ∧ (maxRadius e = EXPLOSION_MAX_RADIUS
     ∨ maxRadius e = EXPLOSION_MAX_RADIUS / 2).

(** ** One evaluation per frame at most *)

(** During a walk that has reached index [k]: every element of [now] is
    one of those that were there [before], or lies below [k] and is one of
    them after one [step]. *)
Definition walked {A} (step : A → A) (before : A → Prop) (k : nat)
    (now : list A) : Prop :=
  ∀ i a', now !! i = Some a' →
    before a' ∨ ((i < k)%nat ∧ ∃ a, before a ∧ a' = step a).

(** An explosion as it is pushed. *)
Definition fresh (e : Explosion) : Prop :=
  ∃ id pos m, e = newExplosion id pos m.

(** ** Defence *)

(** A turret is alive. *)
Definition defended (st : GameState) : Prop :=
  ∃ t, t ∈ turrets st ∧ t_destroyed t = false.

(** During the walk over the explosions that has reached index [k]: an
    unfinished explosion is there that the walk has passed or that is
    growing. *)
Definition smoking (k : nat) (st : GameState) : Prop :=
  ∃ i e, explosions st !! i = Some e ∧ finished e = false
         ∧ ((i < k)%nat ∨ growing e = true).

(** The size of a wave: three rockets in round 1, three plus the round
    later. *)
Definition waveSize (st : GameState) : Z :=
  if (round st =? 1)%Z then 3%Z else (3 + round st)%Z.

(** * Lemmas *)

(** ** Reasoning about [forEach] *)

Lemma forEach_from_invariant {St X : Type} (arr : St → list X)
    (callback : X → nat → St → St) (P : St → Prop) :
  (∀ v k s, arr s !! k = Some v → P s → P (callback v k s)) →
  ∀ len k s, P s → P (forEach_from arr callback len k s).
Proof.
  intros Hcb len. induction len as [|len IH]; intros k s Hs; simpl; [done|].
  apply IH. destruct (arr s !! k) eqn:E; eauto.
Qed.

Lemma forEach_invariant {St X : Type} (arr : St → list X)
    (callback : X → nat → St → St) (P : St → Prop) :
  (∀ v k s, arr s !! k = Some v → P s → P (callback v k s)) →
  ∀ s, P s → P (forEach arr callback s).
Proof. intros Hcb s. apply forEach_from_invariant, Hcb. Qed.

(** ** A frame as a sequence of elementary changes *)

Section Frames.

Variable Math_random : nat → Q.

Notation "w ~> w'" := (evolves w w') (at level 70).

Lemma evolves_refl w : w ~> w.
Proof. apply rtc_refl. Qed.

Lemma evolves_step w (f : GameState → GameState) :
  mutation (stateRef w) (f (stateRef w)) → w ~> on_state f w.
Proof. intros H. apply rtc_once, H. Qed.

Lemma evolves_trans w1 w2 w3 : w1 ~> w2 → w2 ~> w3 → w1 ~> w3.
Proof. apply rtc_trans. Qed.

Lemma evolves_forEach {X} (arr : World → list X) callback :
  (∀ v k w, arr w !! k = Some v → w ~> callback v k w) →
  ∀ w, w ~> forEach arr callback w.
Proof.
  intros Hcb w.
  apply (forEach_invariant arr callback (λ w', w ~> w')); [|apply evolves_refl].
  intros v k s Hk Hs. eapply evolves_trans; [exact Hs|]. by apply Hcb.
Qed.

Lemma updateRocket_evolves r index w :
  rockets (stateRef w) !! index = Some r →
  w ~> updateRocket Math_random r index w.
Proof.
  intros Hr. unfold updateRocket. cbv zeta.
  eapply evolves_trans.
  { apply evolves_step. by apply mut_move_rocket. }
  destruct (Qle_bool 1 _); [|apply evolves_refl].
  unfold random. cbv beta iota.
  do 4 (eapply evolves_trans; [|apply evolves_step; constructor; auto]).
  apply rtc_refl.
Qed.

Lemma updateMissile_evolves m index w :
  missiles (stateRef w) !! index = Some m →
  w ~> updateMissile Math_random m index w.
Proof.
  intros Hm. unfold updateMissile. cbv zeta.
  eapply evolves_trans.
  { apply evolves_step. by apply mut_move_missile. }
  destruct (Qle_bool 1 _); [|apply evolves_refl].
  unfold random. cbv beta iota.
  do 2 (eapply evolves_trans; [|apply evolves_step; constructor; auto]).
  apply rtc_refl.
Qed.

Lemma collide_evolves e r rIdx w :
  rockets (stateRef w) !! rIdx = Some r →
  w ~> collide Math_random e r rIdx w.
Proof.
  intros Hr. unfold collide. cbv zeta.
  destruct (sqrt_ltb _ _); [|apply evolves_refl].
  unfold random. cbv beta iota.
  apply rtc_once, (mut_kill (stateRef w) rIdx r _ Hr).
Qed.

Lemma updateExplosion_evolves e index w :
  explosions (stateRef w) !! index = Some e →
  w ~> updateExplosion Math_random e index w.
Proof.
  intros He. unfold updateExplosion. cbv zeta.
  pose proof (mut_pulse (stateRef w) index e He) as Hp.
  destruct (finished (pulse e)) eqn:Hf.
  - apply rtc_once. exact Hp.
  - eapply evolves_trans;
      [apply (evolves_step w (set_explosions <[index := pulse e]>)), Hp|].
    apply evolves_forEach. intros. by apply collide_evolves.
Qed.

(** The three loops of [update], in the order of the source. *)
Lemma loops_evolve w :
  w ~> forEach (λ w, explosions (stateRef w)) (updateExplosion Math_random)
         (forEach (λ w, missiles (stateRef w)) (updateMissile Math_random)
            (forEach (λ w, rockets (stateRef w)) (updateRocket Math_random)
               w)).
Proof.
  eapply evolves_trans;
    [|apply evolves_forEach; intros; by apply updateExplosion_evolves].
  eapply evolves_trans;
    [|apply evolves_forEach; intros; by apply updateMissile_evolves].
  apply evolves_forEach; intros; by apply updateRocket_evolves.
Qed.

Lemma settled_refl st : settled Math_random st st.
Proof. unfold settled. tauto. Qed.

Lemma settled_status s st st' :
  settled Math_random st st' → settled Math_random st (set_status s st').
Proof. unfold settled. simpl. tauto. Qed.

Lemma spawnRocket_settled w :
  settled Math_random (stateRef w) (stateRef (spawnRocket Math_random w)).
Proof.
  unfold spawnRocket. cbv zeta.
  destruct (_ || _); [apply settled_refl|].
  unfold random. cbv beta iota.
  destruct (length _ =? 0)%nat; [unfold settled; simpl; tauto|].
  match goal with
  | |- settled _ _ (stateRef match ?o with Some _ => _ | None => _ end) =>
      destruct o as [target|]
  end; [|unfold settled; simpl; tauto].
  unfold settled. simpl. repeat split. right.
  by exists (S (S (drawn w))), (drawn w), (S (S (S (drawn w)))), target.
Qed.

Lemma settled_status_l s st st' :
  settled Math_random (set_status s st) st' → settled Math_random st st'.
Proof. unfold settled. simpl. tauto. Qed.

Lemma checkOutcome_settled w :
  settled Math_random (stateRef w) (stateRef (checkOutcome Math_random w)).
Proof.
  unfold checkOutcome. cbv zeta. unfold random. cbv beta iota.
  repeat match goal with
         | |- context [if ?b then _ else _] => destruct b
         end;
    first
      [ simpl; repeat apply settled_status; apply settled_refl
      | apply (spawnRocket_settled (mkWorld _ _))
      | apply (settled_status_l LOST), (spawnRocket_settled (mkWorld _ _))
      | apply (settled_status_l ROUND_END),
          (spawnRocket_settled (mkWorld _ _))
      | apply (settled_status_l LOST), (settled_status_l ROUND_END),
          (spawnRocket_settled (mkWorld _ _)) ].
Qed.

(** A frame is a no-op outside [PLAYING]; otherwise it is the three loops
    followed by the outcome and the spawn. *)
Lemma update_cases w :
  (status (stateRef w) ≠ PLAYING ∧ update Math_random w = w)
  ∨ (status (stateRef w) = PLAYING
     ∧ ∃ w', w ~> w'
         ∧ update Math_random w = checkOutcome Math_random w').
Proof.
  unfold update. destruct (decide (status (stateRef w) = PLAYING)) as [E|E].
  - right. split; [done|]. rewrite bool_decide_eq_true_2 by done. simpl.
    eexists. split; [apply loops_evolve | done].
  - left. split; [done|]. by rewrite bool_decide_eq_false_2.
Qed.

End Frames.

(** ** Tests on numbers *)

Lemma Qltb_lt a b : Qltb a b = true ↔ a < b.
Proof.
  unfold Qltb. rewrite negb_true_iff, <- not_true_iff_false, Qle_bool_iff.
  split; [apply Qnot_le_lt | apply Qlt_not_le].
Qed.

Lemma Qltb_ge a b : Qltb a b = false ↔ b <= a.
Proof. unfold Qltb. rewrite negb_false_iff. apply Qle_bool_iff. Qed.

Lemma Qle_bool_gt a b : Qle_bool a b = false ↔ b < a.
Proof.
  rewrite <- not_true_iff_false, Qle_bool_iff.
  split; [apply Qnot_le_lt | apply Qlt_not_le].
Qed.

Lemma delete_insert_same {A} (l : list A) i v : delete i (<[i := v]> l) = delete i l.
Proof.
  revert i. induction l as [|a l IH]; intros [|i]; simpl; try done.
  f_equal. apply IH.
Qed.

(** ** Turrets and explosions stay sound *)

Lemma bounded_new id pos m :
  m = EXPLOSION_MAX_RADIUS ∨ m = EXPLOSION_MAX_RADIUS / 2 →
  bounded (newExplosion id pos m).
Proof.
  unfold bounded, EXPLOSION_MAX_RADIUS, EXPLOSION_GROWTH_SPEED.
  intros [-> | ->]; simpl; repeat split; intros; lra.
Qed.

Lemma bounded_pulse e :
  bounded e → finished (pulse e) = false →
  bounded (pulse e) ∧ 0 < radius (pulse e).
Proof.
  unfold bounded, pulse, EXPLOSION_GROWTH_SPEED.
  intros (H0 & H1 & H2). destruct (growing e) eqn:Hg; simpl.
  - specialize (H2 eq_refl). intros _.
    destruct (Qle_bool _ _) eqn:Hm; repeat split; try lra; try done.
    all: intros _; apply Qle_bool_gt in Hm; lra.
  - destruct (Qle_bool _ 0) eqn:Hz; [done|]. intros _.
    apply Qle_bool_gt in Hz. repeat split; try lra; done.
Qed.

Lemma stocked_hitTurret target t : stocked t → stocked (hitTurret target t).
Proof. unfold hitTurret. by destruct (_ && _ && _). Qed.

Lemma sound_mutation st st' : sound st → mutation st st' → sound st'.
Proof.
  intros [Ht He] Hm.
  destruct Hm; try (split; simpl; assumption).
  - split; simpl; [done|]. apply Forall_app. split; [done|].
    constructor; [by apply bounded_new | constructor].
  - pose proof (Forall_lookup_1 _ _ _ _ He H) as Hb.
    destruct (finished (pulse e)) eqn:Hf; split; simpl; try done.
    + rewrite delete_insert_same. by apply Forall_delete.
    + apply Forall_insert; [done|]. by apply bounded_pulse.
  - split; simpl; [|done]. apply Forall_map.
    eapply Forall_impl; [exact Ht|]. intros t. apply stocked_hitTurret.
  - split; simpl; [done|]. apply Forall_app. split; [done|].
    constructor; [apply bounded_new; by right | constructor].
Qed.

Lemma sound_evolves w w' : evolves w w' → sound (stateRef w) → sound (stateRef w').
Proof.
  unfold evolves. induction 1; [done|]. eauto using sound_mutation.
Qed.

Lemma sound_initGame : sound initGame.
Proof.
  split; simpl.
  - repeat constructor; simpl; lia.
  - constructor.
Qed.

Lemma stocked_refill t : stocked t → stocked (refill t).
Proof. unfold stocked, refill. destruct (t_destroyed t); simpl; lia. Qed.

Lemma sound_nextRound st : sound st → sound (nextRound st).
Proof.
  intros [Ht He]. split; simpl; [|done].
  apply Forall_map. eapply Forall_impl; [exact Ht|].
  intros t. apply stocked_refill.
Qed.

(** ** The turret that [handleCanvasClick] picks *)

Lemma eligible_test t :
  negb (t_destroyed t) && (0 <? ammo t)%Z = true ↔ eligible t.
Proof.
  unfold eligible. rewrite andb_true_iff, negb_true_iff, Z.ltb_lt. tauto.
Qed.

Lemma lookup_snoc_Some {A} (l : list A) (a b : A) j :
  (l ++ [a]) !! j = Some b →
  l !! j = Some b ∨ (j = length l ∧ b = a).
Proof.
  intros H. destruct (decide (j < length l)%nat) as [Hlt|Hge].
  - left. by rewrite lookup_app_l in H.
  - right. rewrite lookup_app_r in H by lia.
    destruct (j - length l)%nat as [|n] eqn:E; simpl in H; [|done].
    split; [lia | congruence].
Qed.

Lemma scanned_step cx pre best t :
  scanned cx pre best →
  scanned cx (pre ++ [t])
    (if negb (t_destroyed t) && (0 <? ammo t)%Z then
       let dist := Qabs (x (t_pos t) - cx) in
       if match best.2 with
          | None => true
          | Some minDist => Qltb dist minDist
          end
       then (Z.of_nat (length pre), Some dist) else best
     else best).
Proof.
  intros Hs. destruct (negb _ && _) eqn:Hel.
  - apply eligible_test in Hel. cbv zeta. fold (dist cx t).
    destruct Hs as [[-> Hnone] | (j & t0 & -> & Hj & Hel0 & Hmin & Hfirst)]; simpl.
    + right. exists (length pre), t. split; [done|].
      assert (∀ j' t', (pre ++ [t]) !! j' = Some t' → eligible t' →
                j' = length pre ∧ t' = t) as Honly.
      { intros j' t' Hl He. apply lookup_snoc_Some in Hl as [Hl|Hl]; [|done].
        destruct (Forall_lookup_1 _ _ _ _ Hnone Hl He). }
      repeat split; try apply Hel.
      * by rewrite lookup_app_r, Nat.sub_diag.
      * intros j' t' Hl He. destruct (Honly _ _ Hl He) as [_ ->]. lra.
      * intros j' t' Hl He Hlt. destruct (Honly _ _ Hl He). lia.
    + destruct (Qltb (dist cx t) (dist cx t0)) eqn:Hd.
      * apply Qltb_lt in Hd. right. exists (length pre), t. split; [done|].
        repeat split; try apply Hel.
        -- by rewrite lookup_app_r, Nat.sub_diag.
        -- intros j' t' Hl He. apply lookup_snoc_Some in Hl as [Hl|[_ ->]];
             [|lra]. specialize (Hmin _ _ Hl He). lra.
        -- intros j' t' Hl He Hlt. apply lookup_snoc_Some in Hl as [Hl|[? _]];
             [|lia]. specialize (Hmin _ _ Hl He). lra.
      * apply Qltb_ge in Hd. right. exists j, t0. split; [done|].
        repeat split; try apply Hel0.
        -- rewrite lookup_app_l; [done|]. by eapply lookup_lt_Some.
        -- intros j' t' Hl He. apply lookup_snoc_Some in Hl as [Hl|[_ ->]];
             [by eapply Hmin | done].
        -- intros j' t' Hl He Hlt. apply lookup_snoc_Some in Hl as [Hl|[-> _]];
             [by eapply Hfirst|]. apply lookup_lt_Some in Hj. lia.
  - assert (¬ eligible t) as Hno.
    { rewrite <- eligible_test. by rewrite Hel. }
    destruct Hs as [[-> Hnone] | (j & t0 & -> & Hj & Hel0 & Hmin & Hfirst)].
    + left. split; [done|]. apply Forall_app. split; [done|]. by repeat constructor.
    + right. exists j, t0. split; [done|]. repeat split; try apply Hel0.
      * rewrite lookup_app_l; [done|]. by eapply lookup_lt_Some.
      * intros j' t' Hl He. apply lookup_snoc_Some in Hl as [Hl|[_ ->]];
          [by eapply Hmin | done].
      * intros j' t' Hl He Hlt. apply lookup_snoc_Some in Hl as [Hl|[_ ->]];
          [by eapply Hfirst | done].
Qed.

Lemma closestTurret_scanned cx ts pre best :
  scanned cx pre best →
  scanned cx (pre ++ ts) (closestTurret cx ts (Z.of_nat (length pre)) best).
Proof.
  revert pre best. induction ts as [|t ts IH]; intros pre best Hs; simpl.
  - by rewrite app_nil_r.
  - replace (pre ++ t :: ts) with ((pre ++ [t]) ++ ts)
      by (by rewrite <- app_assoc).
    replace (Z.of_nat (length pre) + 1)%Z
      with (Z.of_nat (length (pre ++ [t])))
      by (rewrite length_app; simpl; lia).
    apply IH. by apply scanned_step.
Qed.

Lemma closestTurret_spec cx ts :
  scanned cx ts (closestTurret cx ts 0 ((-1)%Z, None)).
Proof.
  apply (closestTurret_scanned cx ts []). left. split; [done|constructor].
Qed.

(** ** What a click does *)

Lemma point_copy p : mkPoint (x p) (y p) = p.
Proof. by destruct p. Qed.

Lemma handleCanvasClick_idle Math_random click w :
  status (stateRef w) ≠ PLAYING → handleCanvasClick Math_random click w = w.
Proof.
  intros H. unfold handleCanvasClick. by rewrite bool_decide_eq_false_2.
Qed.

Lemma handleCanvasClick_cases Math_random click w :
  status (stateRef w) = PLAYING →
  (Forall (λ t, ¬ eligible t) (turrets (stateRef w))
   ∧ handleCanvasClick Math_random click w = w)
  ∨ (∃ j t, chosen (x click) (turrets (stateRef w)) j t
            ∧ handleCanvasClick Math_random click w
              = fired Math_random click w j t).
Proof.
  intros H. unfold handleCanvasClick. rewrite bool_decide_eq_true_2 by done.
  simpl negb. cbv iota zeta.
  destruct (closestTurret_spec (x click) (turrets (stateRef w)))
    as [[-> Hnone] | (j & t & -> & Hch)]; cbn [fst].
  - left. by split.
  - right. exists j, t. split; [done|].
    replace (Z.of_nat j =? -1)%Z with false by (symmetry; apply Z.eqb_neq; lia).
    rewrite Nat2Z.id. destruct Hch as (-> & _). simpl.
    unfold fired, on_state. simpl. by rewrite !point_copy.
Qed.

Lemma sound_handleCanvasClick Math_random click w :
  sound (stateRef w) → sound (stateRef (handleCanvasClick Math_random click w)).
Proof.
  intros Hs. destruct (decide (status (stateRef w) = PLAYING)) as [E|E];
    [|by rewrite handleCanvasClick_idle].
  destruct (handleCanvasClick_cases Math_random click w E)
    as [[_ ->] | (j & t & (Hj & [_ Ha] & _) & ->)]; [done|].
  destruct Hs as [Ht He]. split; simpl; [|done].
  apply Forall_insert; [done|].
  pose proof (Forall_lookup_1 _ _ _ _ Ht Hj) as Hb.
  unfold stocked in *. simpl. lia.
Qed.

Lemma sound_settled Math_random st st' :
  settled Math_random st st' → sound st → sound st'.
Proof.
  intros (_ & _ & He & Ht & _) [H1 H2]. split; congruence.
Qed.

Lemma sound_update Math_random w :
  sound (stateRef w) → sound (stateRef (update Math_random w)).
Proof.
  intros Hs. destruct (update_cases Math_random w)
    as [[_ ->] | (_ & w' & Hev & ->)]; [done|].
  eapply sound_settled; [apply checkOutcome_settled|].
  by eapply sound_evolves.
Qed.

Lemma sound_perform Math_random w a :
  sound (stateRef w) → sound (stateRef (perform Math_random w a)).
Proof.
  destruct a; simpl; intros Hs.
  - apply sound_initGame.
  - by apply sound_nextRound.
  - by apply sound_handleCanvasClick.
  - by apply sound_update.
Qed.

(** Any property kept by every action holds throughout every session. *)
Lemma play_invariant Math_random (P : World → Prop) :
  P boot → (∀ w a, P w → P (perform Math_random w a)) →
  ∀ acts, P (play Math_random acts).
Proof.
  intros H0 Hstep acts. unfold play. generalize boot H0.
  induction acts as [|a acts IH]; intros w Hw; simpl; [done|].
  apply IH, Hstep, Hw.
Qed.

Lemma sound_play Math_random acts : sound (stateRef (play Math_random acts)).
Proof.
  apply (play_invariant Math_random (λ w, sound (stateRef w))).
  - split; constructor.
  - intros w a. apply sound_perform.
Qed.

(** ** Projectiles on their course *)

Lemma elem_of_insert_inv {A} (l : list A) i v a :
  a ∈ <[i := v]> l → a = v ∨ a ∈ l.
Proof.
  intros [j Hj]%list_elem_of_lookup.
  apply list_lookup_insert_Some in Hj as [(_ & -> & _) | (_ & Hj)]; [by left|].
  right. by eapply list_elem_of_lookup_2.
Qed.

Lemma rocket_flying_move r : rocket_flying r → rocket_flying (moveRocket r).
Proof.
  intros [_ Hs]. split; [|exact Hs]. split; simpl; reflexivity.
Qed.

Lemma missile_flying_move m : missile_flying m → missile_flying (moveMissile m).
Proof.
  intros [_ Hs]. split; [|exact Hs]. split; simpl; reflexivity.
Qed.

Lemma on_course_mutation st st' : on_course st → mutation st st' → on_course st'.
Proof.
  intros [Hr Hm Hn] Hmut.
  destruct Hmut; try (split; simpl; assumption).
  - split; simpl; try done. apply Forall_insert; [done|].
    apply rocket_flying_move. by eapply Forall_lookup_1.
  - split; simpl; try done. by apply Forall_delete.
  - split; simpl; try done. apply Forall_insert; [done|].
    apply missile_flying_move. by eapply Forall_lookup_1.
  - split; simpl; try done. by apply Forall_delete.
  - destruct (finished (pulse e)); split; simpl; done.
  - split; simpl; try done. by apply Forall_delete.
Qed.

Lemma on_course_evolves w w' :
  evolves w w' → on_course (stateRef w) → on_course (stateRef w').
Proof.
  unfold evolves. induction 1; [done|]. eauto using on_course_mutation.
Qed.

Lemma rocket_flying_launched st id ux u target :
  (1 <= round st)%Z → 0 <= u → rocket_flying (launched st id ux u target).
Proof.
  intros Hn Hu. split; [split; simpl; ring|]. simpl.
  assert (0 <= inject_Z (round st - 1)) as Hz.
  { change 0 with (inject_Z 0). rewrite <- Zle_Qle. lia. }
  unfold ROCKET_SPEED_BASE, ROCKET_SPEED_INC. nra.
Qed.

Lemma on_course_settled Math_random st st' :
  (∀ n, 0 <= Math_random n) →
  settled Math_random st st' → on_course st → on_course st'.
Proof.
  intros Hrnd (_ & Hm & _ & _ & _ & Hn & Hr) [H1 H2 H3].
  split; [|congruence|congruence].
  destruct Hr as [-> | (i & j & k & target & ->)]; [done|].
  apply Forall_app. split; [done|].
  constructor; [|constructor]. by apply rocket_flying_launched.
Qed.

Lemma on_course_handleCanvasClick Math_random click w :
  on_course (stateRef w) →
  on_course (stateRef (handleCanvasClick Math_random click w)).
Proof.
  intros Hc. destruct (decide (status (stateRef w) = PLAYING)) as [E|E];
    [|by rewrite handleCanvasClick_idle].
  destruct (handleCanvasClick_cases Math_random click w E)
    as [[_ ->] | (j & t & _ & ->)]; [done|].
  destruct Hc as [H1 H2 H3]. split; simpl; try done.
  apply Forall_app. split; [done|]. constructor; [|constructor].
  split; [split; simpl; ring|]. simpl. unfold MISSILE_SPEED. lra.
Qed.

Lemma on_course_perform Math_random w a :
  (∀ n, 0 <= Math_random n) →
  on_course (stateRef w) → on_course (stateRef (perform Math_random w a)).
Proof.
  intros Hrnd. destruct a; simpl; intros Hc.
  - split; simpl; [constructor|constructor|lia].
  - destruct Hc as [H1 H2 H3]. split; simpl; try done. lia.
  - by apply on_course_handleCanvasClick.
  - destruct (update_cases Math_random w)
      as [[_ ->] | (_ & w' & Hev & ->)]; [done|].
    eapply on_course_settled; [done|apply checkOutcome_settled|].
    by eapply on_course_evolves.
Qed.

Lemma on_course_play Math_random acts :
  (∀ n, 0 <= Math_random n) → on_course (stateRef (play Math_random acts)).
Proof.
  intros Hrnd.
  apply (play_invariant Math_random (λ w, on_course (stateRef w))).
  - split; simpl; [constructor|constructor|lia].
  - intros w a. by apply on_course_perform.
Qed.

Lemma Forall2_same {A} (R : A → A → Prop) (l : list A) :
  (∀ a, R a a) → Forall2 R l l.
Proof. intros H. induction l; constructor; auto. Qed.

Lemma carried_refl {A} (R : A → A → Prop) (l : list A) :
  (∀ a, R a a) → carried R l l.
Proof. intros H. exists l. split; [done|]. by apply Forall2_same. Qed.

Lemma carried_nil {A} (R : A → A → Prop) (l : list A) : carried R l [].
Proof. exists []. split; [apply sublist_nil_l | constructor]. Qed.

Lemma carried_insert {A} (R : A → A → Prop) (old now : list A) i a b :
  carried R old now → now !! i = Some a → (∀ a0, R a0 a → R a0 b) →
  carried R old (<[i := b]> now).
Proof.
  intros (from & Hsub & HF) Hi Hstep. exists from. split; [done|].
  destruct (Forall2_lookup_r _ _ _ _ _ HF Hi) as (a0 & Ha0 & HR).
  rewrite <- (list_insert_id _ _ _ Ha0). apply Forall2_insert; auto.
Qed.

Lemma carried_delete {A} (R : A → A → Prop) (old now : list A) i :
  carried R old now → carried R old (delete i now).
Proof.
  intros (from & Hsub & HF). exists (delete i from). split.
  - etransitivity; [apply sublist_delete | done].
  - by apply Forall2_delete.
Qed.

Lemma Forall2_sublist_r {A} (R : A → A → Prop) (l k k' : list A) :
  Forall2 R l k → sublist k' k → ∃ l', sublist l' l ∧ Forall2 R l' k'.
Proof.
  intros HF. revert k'. induction HF as [|a b l k Hab HF IH]; intros k' Hs.
  - apply sublist_nil_r in Hs as ->. exists []. split; constructor.
  - apply sublist_cons_r in Hs as [Hs | (k'' & -> & Hs)].
    + destruct (IH _ Hs) as (l' & Hl & HF'). exists l'.
      split; [by apply sublist_cons | done].
    + destruct (IH _ Hs) as (l' & Hl & HF'). exists (a :: l').
      split; [by apply sublist_skip | by constructor].
Qed.

(** What is carried to a state and then on to a later one is carried to the
    later one; what was added on the way stays among what was added. *)
Lemma carried_compose {A} (R : A → A → Prop) (P : A → Prop)
    (old mid kept fresh kept1 fresh1 : list A) :
  (∀ a b c, R a b → R b c → R a c) → (∀ a b, R a b → P a → P b) →
  mid = kept ++ fresh → carried R old kept → Forall P fresh →
  carried R mid kept1 → Forall P fresh1 →
  ∃ kept2 fresh2,
    kept1 ++ fresh1 = kept2 ++ fresh2 ∧ carried R old kept2
    ∧ Forall P fresh2.
Proof.
  intros Htrans HP -> (from0 & Hs0 & HF0) Hfresh (from1 & Hs1 & HF1) Hfresh1.
  apply sublist_app_r in Hs1 as (fa & fb & -> & Hsa & Hsb).
  apply Forall2_app_inv_l in HF1 as (ka & kb & HFa & HFb & ->).
  destruct (Forall2_sublist_r _ _ _ _ HF0 Hsa) as (from0' & Hs0' & HF0').
  exists ka, (kb ++ fresh1). split; [by rewrite app_assoc|]. split.
  - exists from0'. split; [by etransitivity|].
    eapply Forall2_trans; [|exact HF0'|exact HFa]. exact Htrans.
  - apply Forall_app. split; [|done].
    assert (Forall P fb) as Hfb.
    { apply Forall_forall. intros a Ha.
      apply (proj1 (Forall_forall _ _) Hfresh).
      by eapply elem_of_sublist. }
    clear -HP HFb Hfb. induction HFb; [constructor|].
    inversion Hfb; subst. constructor; eauto.
Qed.

Lemma rocket_descends_refl r : rocket_descends r r.
Proof. repeat split. apply Qle_refl. Qed.

Lemma rocket_descends_trans r1 r2 r3 :
  rocket_descends r1 r2 → rocket_descends r2 r3 → rocket_descends r1 r3.
Proof.
  intros (? & ? & ? & ? & ?) (? & ? & ? & ? & ?).
  repeat split; try congruence. by eapply Qle_trans.
Qed.

Lemma rocket_descends_move r :
  0 <= r_speed r → rocket_descends r (moveRocket r).
Proof. intros H. repeat split. simpl. lra. Qed.

Lemma missile_descends_refl m : missile_descends m m.
Proof. repeat split. apply Qle_refl. Qed.

Lemma missile_descends_trans m1 m2 m3 :
  missile_descends m1 m2 → missile_descends m2 m3 → missile_descends m1 m3.
Proof.
  intros (? & ? & ? & ? & ?) (? & ? & ? & ? & ?).
  repeat split; try congruence. by eapply Qle_trans.
Qed.

Lemma missile_descends_move m :
  0 <= m_speed m → missile_descends m (moveMissile m).
Proof. intros H. repeat split. simpl. lra. Qed.

Lemma flown_refl st : flown st st.
Proof.
  split; apply carried_refl;
    [apply rocket_descends_refl | apply missile_descends_refl].
Qed.

Lemma flown_mutation st0 st st' :
  on_course st → flown st0 st → mutation st st' → flown st0 st'.
Proof.
  intros [Hr Hm _] [Cr Cm] Hmut.
  destruct Hmut as [i r H|i|i m H|i|id pos m H|i e H|target|target|i r id H];
    try (split; simpl; assumption).
  - split; simpl; [|done]. eapply carried_insert; [done..|].
    intros r0 H0. eapply rocket_descends_trans; [exact H0|].
    apply rocket_descends_move.
    by destruct (Forall_lookup_1 _ _ _ _ Hr H).
  - split; simpl; [|done]. by apply carried_delete.
  - split; simpl; [done|]. eapply carried_insert; [done..|].
    intros m0 H0. eapply missile_descends_trans; [exact H0|].
    apply missile_descends_move.
    by destruct (Forall_lookup_1 _ _ _ _ Hm H).
  - split; simpl; [done|]. by apply carried_delete.
  - by destruct (finished (pulse e)).
  - split; simpl; [|done]. by apply carried_delete.
Qed.

Lemma flown_evolves w w' :
  on_course (stateRef w) → evolves w w' → flown (stateRef w) (stateRef w').
Proof.
  unfold evolves. destruct w as [st0 ?], w' as [st' ?]. simpl.
  intros Hc Hev.
  assert (on_course st' ∧ flown st0 st') as [_ H]; [|exact H].
  revert st' Hev. apply (rtc_ind_r (λ st', on_course st' ∧ flown st0 st')).
  - split; [done | apply flown_refl].
  - intros st1 st2 _ Hmut [Hc1 Hf]. split.
    + by eapply on_course_mutation.
    + by eapply flown_mutation.
Qed.

(** ** Score and ammunition during a frame *)

Lemma length_delete_le {A} (l : list A) i : (length (delete i l) <= length l)%nat.
Proof.
  revert i. induction l as [|a l IH]; intros [|i]; simpl; try lia.
  specialize (IH i). lia.
Qed.

Lemma shot_down_mutation st0 st st' k :
  shot_down st0 st k → mutation st st' →
  shot_down st0 st' k ∨ shot_down st0 st' (S k).
Proof.
  unfold shot_down. intros [Hs Hl] Hmut.
  destruct Hmut; simpl; try (left; split; [done|]).
  - by rewrite length_insert.
  - pose proof (length_delete_le (rockets st) i). lia.
  - done.
  - done.
  - done.
  - destruct (finished (pulse e)); simpl; by left.
  - done.
  - done.
  - right. rewrite length_delete by eauto.
    apply lookup_lt_Some in H. split; lia.
Qed.

Lemma shot_down_evolves w w' :
  evolves w w' → ∃ k, shot_down (stateRef w) (stateRef w') k.
Proof.
  unfold evolves. destruct w as [st0 ?], w' as [st' ?]. simpl.
  revert st'. apply (rtc_ind_r (λ st', ∃ k, shot_down st0 st' k)).
  - exists 0%nat. unfold shot_down. split; lia.
  - intros st1 st2 _ Hmut [k Hk].
    destruct (shot_down_mutation _ _ _ _ Hk Hmut); eauto.
Qed.

Lemma supply_mutation st st' :
  mutation st st' → map supply (turrets st') = map supply (turrets st).
Proof.
  intros Hmut. destruct Hmut; simpl; try done.
  - by destruct (finished (pulse e)).
  - rewrite map_map. apply map_ext. intros t. unfold hitTurret.
    by destruct (_ && _ && _).
Qed.

Lemma supply_evolves w w' :
  evolves w w' →
  map supply (turrets (stateRef w')) = map supply (turrets (stateRef w)).
Proof.
  unfold evolves. destruct w as [st0 ?], w' as [st' ?]. simpl.
  revert st'.
  apply (rtc_ind_r (λ st', map supply (turrets st') = map supply (turrets st0))).
  - done.
  - intros st1 st2 _ Hmut <-. by apply supply_mutation.
Qed.

Lemma ammoBonus_from (ts : list Turret) (b : Z) :
  fold_left (λ bonus t, if t_destroyed t then bonus else bonus + ammo t * 5)%Z
    ts b
  = (b + ammoBonus ts)%Z.
Proof.
  unfold ammoBonus. revert b. induction ts as [|t ts IH]; intros b; simpl.
  - lia.
  - rewrite IH, (IH (if t_destroyed t then _ else _)).
    destruct (t_destroyed t); lia.
Qed.

Lemma ammoBonus_cons t ts :
  ammoBonus (t :: ts)
  = ((if t_destroyed t then 0 else ammo t * 5) + ammoBonus ts)%Z.
Proof.
  unfold ammoBonus at 1. simpl. rewrite ammoBonus_from.
  destruct (t_destroyed t); lia.
Qed.

Lemma ammoBonus_nonneg ts : Forall stocked ts → (0 <= ammoBonus ts)%Z.
Proof.
  induction 1 as [|t ts Ht _ IH]; [done|].
  rewrite ammoBonus_cons. unfold stocked in Ht.
  destruct (t_destroyed t); lia.
Qed.

(** ** The spawn at the end of a frame *)

(** A frame that ends with every turret destroyed spawns nothing and
    leaves the spawn counter alone: the status is no longer [PLAYING]
    when [spawnRocket] is reached. *)
Lemma spawnRocket_idle Math_random w :
  status (stateRef w) ≠ PLAYING → spawnRocket Math_random w = w.
Proof.
  intros H. unfold spawnRocket. by rewrite bool_decide_eq_false_2.
Qed.

Lemma checkOutcome_without_turrets Math_random w :
  forallb t_destroyed (turrets (stateRef w)) = true →
  rockets (stateRef (checkOutcome Math_random w)) = rockets (stateRef w)
  ∧ rocketsToSpawn (stateRef (checkOutcome Math_random w))
    = rocketsToSpawn (stateRef w).
Proof.
  intros H. unfold checkOutcome. rewrite H. cbv zeta.
  destruct (WIN_SCORE <=? _)%Z; [done|].
  set (w2 := if (_ && _ && _) then _ else _).
  assert (status (stateRef w2) ≠ PLAYING
          ∧ rockets (stateRef w2) = rockets (stateRef w)
          ∧ rocketsToSpawn (stateRef w2) = rocketsToSpawn (stateRef w))
    as (Hs & Hr & Hn) by (subst w2; by destruct (_ && _ && _)).
  destruct (0 <? _)%Z; [|done].
  unfold random. cbv beta iota.
  destruct (Qltb _ _); [|done]. by rewrite spawnRocket_idle.
Qed.

(** ** The end of a frame, case by case *)

Lemma set_status_same st : set_status (status st) st = st.
Proof. by destruct st. Qed.

(** The loops leave the status, the round and the spawn counter alone. *)
Lemma standing_mutation st st' :
  mutation st st' →
  status st' = status st ∧ round st' = round st
  ∧ rocketsToSpawn st' = rocketsToSpawn st.
Proof.
  intros Hmut. destruct Hmut; simpl; try done.
  by destruct (finished (pulse e)).
Qed.

Lemma standing_evolves w w' :
  evolves w w' →
  status (stateRef w') = status (stateRef w)
  ∧ round (stateRef w') = round (stateRef w)
  ∧ rocketsToSpawn (stateRef w') = rocketsToSpawn (stateRef w).
Proof.
  unfold evolves. destruct w as [st0 ?], w' as [st' ?]. simpl. revert st'.
  apply (rtc_ind_r (λ st', status st' = status st0 ∧ round st' = round st0
                           ∧ rocketsToSpawn st' = rocketsToSpawn st0)).
  - done.
  - intros st1 st2 _ Hmut (H1 & H2 & H3).
    destruct (standing_mutation _ _ Hmut) as (? & ? & ?).
    repeat split; congruence.
Qed.

(** A spawn in a game in play either only counts down, or counts down and
    pushes a rocket aimed at one of the live targets. *)
Lemma spawnRocket_cases Math_random w :
  status (stateRef w) = PLAYING → (0 < rocketsToSpawn (stateRef w))%Z →
  stateRef (spawnRocket Math_random w)
  = set_rocketsToSpawn (λ n, n - 1)%Z (stateRef w)
  ∨ ∃ target,
      target ∈ liveTargets (stateRef w)
      ∧ spawnRocket Math_random w
        = mkWorld
            (set_rockets
               (λ rs, rs ++ [launched (stateRef w)
                               (Math_random (S (S (drawn w))))
                               (Math_random (drawn w))
                               (Math_random (S (S (S (drawn w)))))
                               target])
               (set_rocketsToSpawn (λ n, n - 1)%Z (stateRef w)))
            (S (S (S (S (drawn w))))).
Proof.
  intros Hp Hn. unfold spawnRocket. cbv zeta.
  rewrite bool_decide_eq_true_2 by done.
  replace (rocketsToSpawn (stateRef w) <=? 0)%Z with false
    by (symmetry; apply Z.leb_gt; lia).
  simpl negb. cbv iota. unfold random. cbv beta iota.
  fold (liveTargets (stateRef w)).
  destruct (length _ =? 0)%nat; [by left|].
  match goal with
  | |- context [match ?o with Some _ => _ | None => _ end] =>
      destruct o as [target|] eqn:Ht
  end; [|by left].
  right. exists target. split; [|done].
  destruct (_ <? 0)%Z; [done|]. by eapply list_elem_of_lookup_2.
Qed.

(** The end of a frame of a game in play: the state gets its verdict and,
    when the verdict is to play on and rockets are left to spawn, a spawn
    may follow. *)
Lemma checkOutcome_cases Math_random w :
  status (stateRef w) = PLAYING →
  stateRef (checkOutcome Math_random w)
  = set_status (verdict (stateRef w)) (stateRef w)
  ∨ (verdict (stateRef w) = PLAYING
     ∧ (0 < rocketsToSpawn (stateRef w))%Z
     ∧ checkOutcome Math_random w
       = spawnRocket Math_random (mkWorld (stateRef w) (S (drawn w)))).
Proof.
  intros Hp. unfold checkOutcome, verdict, roundOver. cbv zeta.
  destruct (forallb t_destroyed (turrets (stateRef w))) eqn:Hall; simpl.
  - destruct (WIN_SCORE <=? _)%Z; [by left|].
    destruct (_ && _ && _); simpl;
      (destruct (0 <? _)%Z; [|by left]);
      unfold random; cbv beta iota;
      (destruct (Qltb _ _); [|by left]);
      rewrite spawnRocket_idle by done; by left.
  - destruct (WIN_SCORE <=? _)%Z; [by left|].
    destruct (_ && _ && _); simpl.
    + destruct (0 <? _)%Z; [|by left].
      unfold random; cbv beta iota.
      destruct (Qltb _ _); [|by left].
      rewrite spawnRocket_idle by done; by left.
    + destruct (0 <? _)%Z eqn:Hn; [|left; by rewrite <- Hp, set_status_same].
      unfold random; cbv beta iota.
      destruct (Qltb _ _); [|left; by rewrite <- Hp, set_status_same].
      right. apply Z.ltb_lt in Hn. by destruct w.
Qed.

Lemma update_playing Math_random w :
  status (stateRef w) = PLAYING →
  ∃ w', evolves w w' ∧ status (stateRef w') = PLAYING
        ∧ update Math_random w = checkOutcome Math_random w'.
Proof.
  intros Hp. destruct (update_cases Math_random w)
    as [[Hn _] | (_ & w' & Hev & Heq)]; [done|].
  exists w'. split; [done|]. split; [|done].
  destruct (standing_evolves _ _ Hev) as (-> & _). done.
Qed.

(** ** The loops of a frame, one by one *)

Lemma update_loops Math_random w :
  update Math_random w
  = if bool_decide (status (stateRef w) = PLAYING)
    then checkOutcome Math_random (loops Math_random w) else w.
Proof. unfold update. by destruct (bool_decide _). Qed.

Lemma evolves_loops Math_random w : evolves w (loops Math_random w).
Proof. apply loops_evolve. Qed.

Lemma score_rocketsPass Math_random w :
  score (stateRef (rocketsPass Math_random w)) = score (stateRef w).
Proof.
  apply (forEach_invariant _ _ (λ v, score (stateRef v) = score (stateRef w)));
    [|done].
  intros r k v _ H. unfold updateRocket. cbv zeta.
  by destruct (Qle_bool _ _).
Qed.

Lemma missilesPass_rockets Math_random w :
  rockets (stateRef (missilesPass Math_random w)) = rockets (stateRef w)
  ∧ score (stateRef (missilesPass Math_random w)) = score (stateRef w).
Proof.
  apply (forEach_invariant _ _
           (λ v, rockets (stateRef v) = rockets (stateRef w)
                 ∧ score (stateRef v) = score (stateRef w))); [|done].
  intros m k v _ H. unfold updateMissile. cbv zeta.
  by destruct (Qle_bool _ _).
Qed.

(** In the loop over the explosions the score and the number of rockets
    move together: 20 points for each rocket that leaves the list. *)
Lemma explosionsPass_pays Math_random w :
  (length (rockets (stateRef (explosionsPass Math_random w)))
   <= length (rockets (stateRef w)))%nat
  ∧ score (stateRef (explosionsPass Math_random w))
    = (score (stateRef w)
       + 20 * (Z.of_nat (length (rockets (stateRef w)))
               - Z.of_nat
                   (length
                      (rockets (stateRef (explosionsPass Math_random w))))))%Z.
Proof.
  set (P := λ v : World,
         (length (rockets (stateRef v)) <= length (rockets (stateRef w)))%nat
         ∧ score (stateRef v)
           = (score (stateRef w)
              + 20 * (Z.of_nat (length (rockets (stateRef w)))
                      - Z.of_nat (length (rockets (stateRef v)))))%Z).
  apply (forEach_invariant _ _ P); [|subst P; simpl; split; lia].
  intros e k v _ Hv. unfold updateExplosion. cbv zeta.
  destruct (finished (pulse e)); [exact Hv|].
  apply (forEach_invariant _ _ P); [|exact Hv].
  intros r i u Hi [Hl Hs]. unfold collide. cbv zeta.
  destruct (sqrt_ltb _ _); [|by split].
  unfold random. cbv beta iota. subst P. simpl.
  rewrite length_delete by eauto.
  apply lookup_lt_Some in Hi. split; lia.
Qed.

(** ** The draws only go forward *)

Lemma drawn_loops Math_random w : (drawn w <= drawn (loops Math_random w))%nat.
Proof.
  set (P := λ v : World, (drawn w <= drawn v)%nat).
  unfold loops, explosionsPass, missilesPass, rocketsPass.
  apply (forEach_invariant _ _ P).
  { intros e k v _ Hv. unfold updateExplosion. cbv zeta.
    destruct (finished (pulse e)); [exact Hv|].
    apply (forEach_invariant _ _ P); [|exact Hv].
    intros r i u _ Hu. unfold collide. cbv zeta.
    destruct (sqrt_ltb _ _); [|done]. subst P. simpl in *. lia. }
  apply (forEach_invariant _ _ P).
  { intros m k v _ Hv. unfold updateMissile. cbv zeta.
    destruct (Qle_bool _ _); [|done]. subst P. simpl in *. lia. }
  apply (forEach_invariant _ _ P); [|subst P; simpl; lia].
  intros r k v _ Hv. unfold updateRocket. cbv zeta.
  destruct (Qle_bool _ _); [|done]. subst P. simpl in *. lia.
Qed.

Lemma drawn_perform Math_random w a :
  (drawn w <= drawn (perform Math_random w a))%nat.
Proof.
  destruct a as [| |click|]; simpl; try lia.
  - destruct (decide (status (stateRef w) = PLAYING)) as [Hp|Hp];
      [|by rewrite handleCanvasClick_idle].
    destruct (handleCanvasClick_cases Math_random click w Hp)
      as [[_ ->] | (j & t & _ & ->)]; simpl; lia.
  - rewrite update_loops. destruct (bool_decide _); [|done].
    pose proof (drawn_loops Math_random w) as Hl.
    generalize dependent (loops Math_random w). intros v Hv.
    unfold checkOutcome, spawnRocket, random. cbv zeta beta iota.
    repeat match goal with
           | |- context [if ?b then _ else _] => destruct b
           | |- context [match ?o with Some _ => _ | None => _ end] =>
               destruct o
           end; simpl; lia.
Qed.

(** ** What one action, and what many, do to the projectiles *)

Lemma launched_round st st' :
  round st' = round st → launched st' = launched st.
Proof. intros H. unfold launched. by rewrite H. Qed.

Lemma perform_carries Math_random w a :
  on_course (stateRef w) →
  let w' := perform Math_random w a in
  (∃ kept fresh,
     rockets (stateRef w') = kept ++ fresh
     ∧ carried rocket_descends (rockets (stateRef w)) kept
     ∧ spawned Math_random w a fresh)
  ∧ (∃ kept fresh,
       missiles (stateRef w') = kept ++ fresh
       ∧ carried missile_descends (missiles (stateRef w)) kept
       ∧ shot Math_random w a fresh).
Proof.
  intros Hc. cbv zeta.
  assert (∀ v, rockets (stateRef v) = rockets (stateRef w) →
            ∃ kept fresh,
              rockets (stateRef v) = kept ++ fresh
              ∧ carried rocket_descends (rockets (stateRef w)) kept
              ∧ spawned Math_random w a fresh) as Hsame_r.
  { intros v ->. exists (rockets (stateRef w)), [].
    rewrite app_nil_r. split; [done|]. split; [|by left].
    apply carried_refl, rocket_descends_refl. }
  assert (∀ v, missiles (stateRef v) = missiles (stateRef w) →
            ∃ kept fresh,
              missiles (stateRef v) = kept ++ fresh
              ∧ carried missile_descends (missiles (stateRef w)) kept
              ∧ shot Math_random w a fresh) as Hsame_m.
  { intros v ->. exists (missiles (stateRef w)), [].
    rewrite app_nil_r. split; [done|]. split; [|by left].
    apply carried_refl, missile_descends_refl. }
  destruct a as [| |click|]; simpl.
  - split; exists [], []; (split; [done|]); (split; [apply carried_nil|by left]).
  - split; [by apply Hsame_r | by apply Hsame_m].
  - destruct (decide (status (stateRef w) = PLAYING)) as [Hp|Hp];
      [|rewrite handleCanvasClick_idle by done;
        split; [by apply Hsame_r | by apply Hsame_m]].
    destruct (handleCanvasClick_cases Math_random click w Hp)
      as [[_ ->] | (j & t & (Hj & _) & ->)];
      [split; [by apply Hsame_r | by apply Hsame_m]|].
    split; [by apply Hsame_r|]. simpl.
    eexists _, _. split; [done|].
    split; [apply carried_refl, missile_descends_refl|].
    right. by exists click, j, t.
  - rewrite update_loops.
    destruct (decide (status (stateRef w) = PLAYING)) as [Hp|Hp];
      [rewrite bool_decide_eq_true_2 by done
      |rewrite bool_decide_eq_false_2 by done;
       split; [by apply Hsame_r | by apply Hsame_m]].
    pose proof (evolves_loops Math_random w) as Hev.
    pose proof (drawn_loops Math_random w) as Hd.
    destruct (flown_evolves _ _ Hc Hev) as [Cr Cm].
    destruct (standing_evolves _ _ Hev) as (Hs & Hrd & _).
    rewrite Hp in Hs.
    generalize dependent (loops Math_random w). intros w3 Hev Hd Cr Cm Hs Hrd.
    destruct (checkOutcome_settled Math_random w3)
      as (_ & Hms & _ & _ & _ & _ & _).
    split; [|exists (missiles (stateRef w3)), [];
             rewrite app_nil_r; split; [done|]; split; [done | by left]].
    destruct (checkOutcome_cases Math_random w3 Hs)
      as [-> | (_ & Hn & ->)].
    { exists (rockets (stateRef w3)), []. rewrite app_nil_r.
      split; [done|]. split; [done | by left]. }
    destruct (spawnRocket_cases Math_random
                (mkWorld (stateRef w3) (S (drawn w3))) Hs Hn)
      as [-> | (target & _ & ->)]; simpl.
    { exists (rockets (stateRef w3)), []. rewrite app_nil_r.
      split; [done|]. split; [done | by left]. }
    eexists _, _. split; [done|]. split; [done|].
    right. split; [done|].
    rewrite (launched_round _ _ Hrd).
    eexists _, _, _, target. split; [|done]. lia.
Qed.

Lemma spawned_born Math_random w a fresh n :
  (n <= drawn w)%nat → spawned Math_random w a fresh →
  Forall (born Math_random r_id n) fresh.
Proof.
  intros Hn [-> | (_ & i & j & k & target & Hi & ->)]; [constructor|].
  constructor; [|constructor]. exists i. split; [lia | done].
Qed.

Lemma shot_born Math_random w a fresh n :
  (n <= drawn w)%nat → shot Math_random w a fresh →
  Forall (born Math_random m_id n) fresh.
Proof.
  intros Hn [-> | (click & j & t & _ & _ & ->)]; [constructor|].
  constructor; [|constructor]. by exists (drawn w).
Qed.

Lemma play_snoc Math_random acts a :
  play Math_random (acts ++ [a])
  = perform Math_random (play Math_random acts) a.
Proof. unfold play. by rewrite fold_left_app. Qed.

Lemma play_carries Math_random acts more :
  (∀ n, 0 <= Math_random n) →
  let w := play Math_random acts in
  let w' := play Math_random (acts ++ more) in
  (drawn w <= drawn w')%nat
  ∧ (∃ kept fresh,
       rockets (stateRef w') = kept ++ fresh
       ∧ carried rocket_descends (rockets (stateRef w)) kept
       ∧ Forall (born Math_random r_id (drawn w)) fresh)
  ∧ (∃ kept fresh,
       missiles (stateRef w') = kept ++ fresh
       ∧ carried missile_descends (missiles (stateRef w)) kept
       ∧ Forall (born Math_random m_id (drawn w)) fresh).
Proof.
  intros Hrnd. cbv zeta. induction more as [|a more IH] using rev_ind.
  - rewrite app_nil_r. split; [done|].
    split; eexists _, []; rewrite app_nil_r; (split; [done|]);
      (split; [|constructor]); apply carried_refl;
      [apply rocket_descends_refl | apply missile_descends_refl].
  - rewrite app_assoc, play_snoc.
    pose proof (on_course_play Math_random (acts ++ more) Hrnd) as Hc.
    destruct IH as (Hd & (kr & fr & Er & Cr & Br) & (km & fm & Em & Cm & Bm)).
    generalize dependent (play Math_random (acts ++ more)). intros v.
    intros Hd Er Em Hc.
    pose proof (drawn_perform Math_random v a) as Hd'.
    destruct (perform_carries Math_random v a Hc)
      as ((kr1 & fr1 & -> & Cr1 & Sr) & (km1 & fm1 & -> & Cm1 & Sm)).
    split; [lia|]. split.
    + eapply (carried_compose rocket_descends); try done.
      * apply rocket_descends_trans.
      * intros r r' (Hid & _) (i & Hi & E). exists i. by rewrite Hid.
      * by eapply spawned_born.
    + eapply (carried_compose missile_descends); try done.
      * apply missile_descends_trans.
      * intros m m' (Hid & _) (i & Hi & E). exists i. by rewrite Hid.
      * by eapply shot_born.
Qed.

(** ** The call of [spawnRocket] *)

Lemma liveTargets_nil st :
  liveTargets st = [] → forallb t_destroyed (turrets st) = true.
Proof.
  unfold liveTargets. intros [_ Hnil]%app_eq_nil.
  apply map_eq_nil in Hnil.
  apply forallb_forall. intros t Hin%list_elem_of_In.
  destruct (t_destroyed t) eqn:Hd; [done|].
  assert (t ∈ filter (λ t, t_destroyed t = false) (turrets st)) as Hf
    by (by apply list_elem_of_filter).
  rewrite Hnil in Hf. by apply elem_of_nil in Hf.
Qed.

(** Step 4 ends in the call of [spawnRocket] on the world of
    [spawnSite]: the world it started from, with the status it has been
    given and one more draw.  With every turret destroyed that status is
    [LOST]: the end of the round is not declared while rockets are left to
    spawn. *)
Lemma spawnSite_call Math_random w w' :
  spawnSite Math_random w = Some w' →
  checkOutcome Math_random w = spawnRocket Math_random w'
  ∧ w' = mkWorld (set_status (status (stateRef w')) (stateRef w))
           (S (drawn w))
  ∧ (forallb t_destroyed (turrets (stateRef w)) = true →
     status (stateRef w') = LOST).
Proof.
  unfold spawnSite, checkOutcome, random. cbv zeta beta iota.
  destruct w as [st n]. cbn [stateRef drawn].
  destruct (forallb t_destroyed (turrets st)) eqn:Ha;
    cbn [stateRef drawn on_state set_status score rocketsToSpawn rockets
         explosions];
    (destruct (WIN_SCORE <=? _)%Z; [done|]);
    (destruct (rocketsToSpawn st =? 0)%Z eqn:Hz;
     [apply Z.eqb_eq in Hz; destruct (_ && _);
      cbn [stateRef drawn on_state set_status rocketsToSpawn];
      by rewrite Hz|]);
    cbn [andb stateRef drawn on_state set_status rocketsToSpawn round];
    (destruct (0 <? _)%Z; [|done]);
    (destruct (Qltb _ _); [|done]);
    intros [= <-]; repeat split; try done;
    cbn [stateRef status set_status]; by rewrite ?set_status_same.
Qed.

(** ** Scenarios of the specification *)

Example initGame_scenario :
  map supply (turrets initGame) = [(10, 10); (20, 20); (10, 10)]%Z
  ∧ length (cities initGame) = 6%nat
  ∧ status initGame = PLAYING
  ∧ round initGame = 1%Z
  ∧ rocketsToSpawn initGame = 3%Z.
Proof. repeat split. Qed.

(** Turrets at x = 50, 400 and 750: a click at x = 200 is answered by the
    first one, a click at x = 225, as far from the first as from the
    second, by the first one too. *)
Example nearest_turret_scenario :
  map ammo (turrets (stateRef (handleCanvasClick quiet (mkPoint 200 100)
                                 (mkWorld initGame 0))))
  = [9; 20; 10]%Z
  ∧ map ammo (turrets (stateRef (handleCanvasClick quiet (mkPoint 225 100)
                                   (mkWorld initGame 0))))
    = [9; 20; 10]%Z
  ∧ map ammo (turrets (stateRef (handleCanvasClick quiet (mkPoint 226 100)
                                   (mkWorld initGame 0))))
    = [10; 19; 10]%Z.
Proof. vm_compute. repeat split. Qed.

(** An interceptor explodes in its fiftieth frame; the explosion grows for
    27 frames, to 40.5, shrinks for 27 and is removed in the last of them. *)
Example explosion_life_scenario :
  let w := play quiet ([InitGame; CanvasClick (mkPoint 400 300)]
                       ++ repeat Frame 49) in
  explosions (stateRef w) = []
  ∧ length (explosions (stateRef (Nat.iter 53 (update quiet) w))) = 1%nat
  ∧ explosions (stateRef (Nat.iter 54 (update quiet) w)) = [].
Proof. vm_compute. repeat split. Qed.

(** * The claims of the specification *)

(** ** C1: outcome priority *)

(** C1.  The specification wants a frame in which every turret is destroyed
    to end in [LOST] whatever else holds.  The code assigns [LOST] and goes
    on: on [last_stand] the last turret falls and the score reaches
    [WIN_SCORE] in the same frame, and the frame ends in [WON]; on
    [all_down] it ends in [ROUND_END]. *)
Theorem update_lost_is_overridden :
  (let st' := stateRef (update quiet (mkWorld last_stand 0)) in
   forallb t_destroyed (turrets st') = true
   ∧ score st' = 1000%Z
   ∧ status st' = WON)
  ∧ (let st' := stateRef (update quiet (mkWorld all_down 0)) in
     forallb t_destroyed (turrets st') = true
     ∧ status st' = ROUND_END).
Proof. vm_compute. repeat split. Qed.

(** ** C2: removal during iteration *)

(** C2.  The specification wants every live entity evaluated exactly once
    per frame.  On [crowded] the first rocket reaches its target and is
    spliced out, the second rocket moves into its index and is skipped: it
    ends the frame exactly as it began, although one evaluation would have
    advanced it.  The same happens to the second explosion when the first
    one finishes. *)
Theorem forEach_splice_skips_next :
  let st' := stateRef (update quiet (mkWorld crowded 0)) in
  rockets st' = [cruising]
  ∧ ¬ r_progress (moveRocket cruising) == r_progress cruising
  ∧ explosions st' !! 0%nat = Some swelling
  ∧ ¬ radius (pulse swelling) == radius swelling.
Proof.
  vm_compute. repeat split; discriminate.
Qed.

(** ** C3: explosion radius *)

(** C3, as stated, fails: in the session [overshoot] the explosion of the
    interceptor has grown past its [maxRadius] (to 40.5 for 40). *)
Lemma explosion_radius_exceeds_max :
  ¬ Forall (λ e, 0 <= radius e ∧ radius e <= maxRadius e)
      (explosions (stateRef (play quiet overshoot))).
Proof.
  intros H.
  assert (∃ e, explosions (stateRef (play quiet overshoot)) !! 0%nat = Some e
               ∧ maxRadius e < radius e) as (e & Hin & Hlt).
  { eexists. split; [vm_compute; reflexivity|]. vm_compute. reflexivity. }
  destruct (Forall_lookup_1 _ _ _ _ H Hin) as [_ Hle].
  clear H Hin. exact (Qlt_not_le _ _ Hlt Hle).
Qed.

(** C3, amended.  In every state of every session each explosion has a
    radius in [0, maxRadius + EXPLOSION_GROWTH_SPEED), a growing explosion
    is still below [maxRadius], and the radius that the next frame compares
    with the rockets (that of [pulse e], when the explosion is not finished
    by it) is positive and below the same bound. *)
Theorem explosion_radius_bounded (Math_random : nat → Q) (acts : list Action) :
  Forall
    (λ e,
       (0 <= radius e ∧ radius e < maxRadius e + EXPLOSION_GROWTH_SPEED)
       ∧ (growing e = true → radius e < maxRadius e)
       ∧ (finished (pulse e) = false →
            0 < radius (pulse e)
            ∧ radius (pulse e) < maxRadius (pulse e) + EXPLOSION_GROWTH_SPEED))
    (explosions (stateRef (play Math_random acts))).
Proof.
  destruct (sound_play Math_random acts) as [_ He].
  eapply Forall_impl; [exact He|].
  intros e Hb. pose proof Hb as (H0 & H1 & H2).
  split; [by split|]. split; [exact H2|].
  intros Hf. destruct (bounded_pulse e Hb Hf) as [(_ & Hlt & _) Hpos].
  by split.
Qed.

(** ** C4: spawning without targets *)

(** C4.  [spawnRocket] is called in one place, at the end of step 4 of
    [update].  Whenever a frame of a game in play makes that call with no
    city and no turret alive, the call changes nothing: the counter of
    rockets to spawn is not decremented, no rocket is added and no draw is
    made.  The world [w'] of the call is the world after the loops with a
    new status and one more draw, and that status is [LOST]: step 4 has
    just found every turret destroyed, so the first guard of [spawnRocket]
    returns.  The later guard on an empty list of targets, which stands
    behind the decrement, is never the one that decides. *)
Theorem spawnRocket_without_target_is_idle
    (Math_random : nat → Q) (w w' : World) :
  status (stateRef w) = PLAYING →
  spawnSite Math_random (loops Math_random w) = Some w' →
  liveTargets (stateRef w') = [] →
  update Math_random w = spawnRocket Math_random w'
  ∧ spawnRocket Math_random w' = w'
  ∧ w' = mkWorld (set_status LOST (stateRef (loops Math_random w)))
           (S (drawn (loops Math_random w))).
Proof.
  intros Hp Hsite Hnone.
  destruct (spawnSite_call _ _ _ Hsite) as (Hcall & Hw' & Hs).
  assert (status (stateRef w') = LOST) as Hlost.
  { apply Hs. apply liveTargets_nil in Hnone.
    by rewrite Hw' in Hnone. }
  rewrite update_loops, bool_decide_eq_true_2 by done.
  split; [exact Hcall|]. split.
  - apply spawnRocket_idle. by rewrite Hlost.
  - by rewrite <- Hlost.
Qed.

(** The frame of [besieged] in which the last turret falls: the draw for
    the chance of a spawn comes out low, and the spawn is attempted with
    nothing left to aim at. *)
Lemma spawnRocket_without_target_is_idle_witness :
  let w := mkWorld besieged 50 in
  ∃ w', spawnSite late_wave (loops late_wave w) = Some w'
        ∧ liveTargets (stateRef w') = []
        ∧ update late_wave w = spawnRocket late_wave w'
        ∧ spawnRocket late_wave w' = w'
        ∧ w' = mkWorld (set_status LOST (stateRef (loops late_wave w)))
                 (S (drawn (loops late_wave w))).
Proof.
  cbv zeta. eexists. split; [vm_compute; reflexivity|].
  split; [reflexivity|].
  apply (spawnRocket_without_target_is_idle late_wave (mkWorld besieged 50)).
  - reflexivity.
  - vm_compute. reflexivity.
  - reflexivity.
Defined.

(** ** C5: firing *)

(** C5, as stated, fails: at the end of [first_round] the status is
    [ROUND_END] and all three turrets have ammunition left, yet a click is
    dropped: the state stays as it is and no missile is fired. *)
Lemma click_outside_play_is_dropped :
  let w := play late_wave first_round in
  let click := mkPoint 200 100 in
  status (stateRef w) = ROUND_END
  ∧ Forall eligible (turrets (stateRef w))
  ∧ handleCanvasClick late_wave click w = w
  ∧ ¬ ∃ j t, handleCanvasClick late_wave click w = fired late_wave click w j t.
Proof.
  assert (play late_wave first_round
          = mkWorld
              (set_status ROUND_END
                 (set_rocketsToSpawn (λ _, 0%Z)
                    (set_score (λ _, 60%Z)
                       (set_turrets
                          <[0%nat := mkTurret (mkPoint 50 560) 9 10 false]>
                          initGame))))
              69) as ->
    by (vm_compute; reflexivity).
  cbv zeta. split; [done|]. split.
  - repeat constructor.
  - split; [done|]. intros (j & t & H). by inversion H.
Qed.

(** C5, amended.  While the status is [PLAYING] and some turret is
    eligible (not destroyed, ammo above 0), a click fires from the eligible
    turret nearest in x, the first stored one among equally near ones: its
    ammo drops by 1 and one missile is appended that starts at the turret,
    aims at the click point, has progress 0 and speed [MISSILE_SPEED].  With
    no eligible turret, and in every status other than [PLAYING], the click
    changes nothing. *)
Theorem handleCanvasClick_fires_while_playing
    (Math_random : nat → Q) (click : Point) (w : World) :
  (status (stateRef w) = PLAYING →
   (∃ t, t ∈ turrets (stateRef w) ∧ eligible t) →
   ∃ j t, chosen (x click) (turrets (stateRef w)) j t
          ∧ handleCanvasClick Math_random click w
            = fired Math_random click w j t)
  ∧ ((∀ t, t ∈ turrets (stateRef w) → ¬ eligible t) →
     handleCanvasClick Math_random click w = w)
  ∧ (status (stateRef w) ≠ PLAYING →
     handleCanvasClick Math_random click w = w).
Proof.
  split; [|split].
  - intros Hp (t & Hin & Hel).
    destruct (handleCanvasClick_cases Math_random click w Hp)
      as [[Hnone _] | Hfire]; [|exact Hfire].
    destruct (proj1 (Forall_forall _ _) Hnone t Hin Hel).
  - intros Hnone.
    destruct (decide (status (stateRef w) = PLAYING)) as [Hp|Hp];
      [|by apply handleCanvasClick_idle].
    destruct (handleCanvasClick_cases Math_random click w Hp)
      as [[_ Heq] | (j & t & (Hj & Hel & _) & _)]; [exact Heq|].
    destruct (Hnone t (list_elem_of_lookup_2 _ _ _ Hj) Hel).
  - apply handleCanvasClick_idle.
Qed.

(** In a new game a click at x = 200 is answered by the turret at x = 50
    (150 away, the one at 400 being 200 away). *)
Lemma handleCanvasClick_fires_while_playing_witness :
  let w := play quiet [InitGame] in
  let click := mkPoint 200 100 in
  ∃ j t, chosen (x click) (turrets (stateRef w)) j t
         ∧ handleCanvasClick quiet click w = fired quiet click w j t.
Proof.
  cbv zeta.
  apply (proj1 (handleCanvasClick_fires_while_playing quiet (mkPoint 200 100)
                  (play quiet [InitGame]))).
  - reflexivity.
  - exists (mkTurret (mkPoint 50 560) 10 10 false). split.
    + apply list_elem_of_here.
    + split; reflexivity.
Defined.

(** ** C6: the round transition *)

Lemma ammoBonus_spec ts : ammoBonus ts = spec_ammo_bonus ts.
Proof.
  induction ts as [|t ts IH]; [done|].
  rewrite ammoBonus_cons, IH. unfold spec_ammo_bonus.
  rewrite filter_cons. destruct (decide (t_destroyed t = false)) as [E|E].
  - rewrite E. simpl. lia.
  - destruct (t_destroyed t); [simpl; lia | done].
Qed.

(** C6.  [nextRound] adds to the score the sum over the turrets that are
    not destroyed of their ammo times 5, sets the ammo of each of them to
    its [maxAmmo] and leaves destroyed turrets as they are, adds 1 to
    [round], sets [rocketsToSpawn] to 3 plus the new round and the status to
    [PLAYING]; projectiles, explosions and cities are not touched.  Two
    surviving turrets with 3 and 7 ammo give a bonus of 50. *)
Theorem nextRound_effect (st : GameState) :
  let st' := nextRound st in
  score st' = (score st + spec_ammo_bonus (turrets st))%Z
  ∧ turrets st'
    = map (λ t, if t_destroyed t then t
                else mkTurret (t_pos t) (maxAmmo t) (maxAmmo t) false)
        (turrets st)
  ∧ round st' = (round st + 1)%Z
  ∧ rocketsToSpawn st' = (3 + round st')%Z
  ∧ status st' = PLAYING
  ∧ (rockets st' = rockets st ∧ missiles st' = missiles st
     ∧ explosions st' = explosions st ∧ cities st' = cities st)
  ∧ ∀ p1 p2 m1 m2,
      score (nextRound
               (set_turrets
                  (λ _, [mkTurret p1 3 m1 false; mkTurret p2 7 m2 false]) st))
      = (score st + 50)%Z.
Proof.
  cbv zeta. simpl. rewrite ammoBonus_spec.
  repeat split; try done; try lia.
  apply map_ext. intros t. unfold refill. by destruct (t_destroyed t).
Qed.

(** ** C7: projectiles follow their line *)

(** C7.  With draws that are not negative, in every state of every session
    the position of each rocket and of each missile is the interpolation of
    its start and target at its progress.  Whatever is done next, the
    rockets afterwards are rockets from before, each with the same
    identity, start, target and speed and a progress that is not smaller,
    different ones from different ones and in the same order, followed by
    at most one new rocket: the one a frame launches, at its start with
    progress 0.  The same holds of the missiles, the new one being the one
    a click fires.  And however the session goes on, the projectiles of
    the later state are projectiles of this state with a progress that is
    not smaller, followed by projectiles created since (their ids are
    later draws): the progress of a projectile never goes down while it is
    in the state. *)
Theorem projectiles_interpolate_and_advance
    (Math_random : nat → Q) (acts : list Action) :
  (∀ n, 0 <= Math_random n) →
  let w := play Math_random acts in
  (Forall
     (λ r, interpolates (r_start r) (r_target r) (r_pos r) (r_progress r))
     (rockets (stateRef w))
   ∧ Forall
       (λ m, interpolates (m_start m) (m_target m) (m_pos m) (m_progress m))
       (missiles (stateRef w)))
  ∧ (∀ a,
       let w' := perform Math_random w a in
       (∃ kept fresh,
          rockets (stateRef w') = kept ++ fresh
          ∧ carried rocket_descends (rockets (stateRef w)) kept
          ∧ spawned Math_random w a fresh)
       ∧ (∃ kept fresh,
            missiles (stateRef w') = kept ++ fresh
            ∧ carried missile_descends (missiles (stateRef w)) kept
            ∧ shot Math_random w a fresh))
  ∧ (∀ more,
       let w' := play Math_random (acts ++ more) in
       (∃ kept fresh,
          rockets (stateRef w') = kept ++ fresh
          ∧ carried rocket_descends (rockets (stateRef w)) kept
          ∧ Forall (born Math_random r_id (drawn w)) fresh)
       ∧ (∃ kept fresh,
            missiles (stateRef w') = kept ++ fresh
            ∧ carried missile_descends (missiles (stateRef w)) kept
            ∧ Forall (born Math_random m_id (drawn w)) fresh)).
Proof.
  intros Hrnd. cbv zeta.
  pose proof (on_course_play Math_random acts Hrnd) as Hc.
  split; [|split].
  - split.
    + eapply Forall_impl; [apply (course_rockets _ Hc)|]. by intros r [? _].
    + eapply Forall_impl; [apply (course_missiles _ Hc)|]. by intros m [? _].
  - intros a. by apply perform_carries.
  - intros more. by destruct (play_carries Math_random acts more Hrnd)
      as (_ & Hr & Hm).
Qed.

(** The statement at work on the first fifty frames of [first_round], when
    the first rocket of the round has just been launched. *)
Lemma projectiles_interpolate_and_advance_witness :
  let w := play late_wave ([InitGame; CanvasClick (mkPoint 0 0)]
                           ++ repeat Frame 50) in
  (Forall
     (λ r, interpolates (r_start r) (r_target r) (r_pos r) (r_progress r))
     (rockets (stateRef w))
   ∧ Forall
       (λ m, interpolates (m_start m) (m_target m) (m_pos m) (m_progress m))
       (missiles (stateRef w)))
  ∧ (∀ a,
       let w' := perform late_wave w a in
       (∃ kept fresh,
          rockets (stateRef w') = kept ++ fresh
          ∧ carried rocket_descends (rockets (stateRef w)) kept
          ∧ spawned late_wave w a fresh)
       ∧ (∃ kept fresh,
            missiles (stateRef w') = kept ++ fresh
            ∧ carried missile_descends (missiles (stateRef w)) kept
            ∧ shot late_wave w a fresh))
  ∧ (∀ more,
       let w' := play late_wave
                   (([InitGame; CanvasClick (mkPoint 0 0)]
                     ++ repeat Frame 50) ++ more) in
       (∃ kept fresh,
          rockets (stateRef w') = kept ++ fresh
          ∧ carried rocket_descends (rockets (stateRef w)) kept
          ∧ Forall (born late_wave r_id (drawn w)) fresh)
       ∧ (∃ kept fresh,
            missiles (stateRef w') = kept ++ fresh
            ∧ carried missile_descends (missiles (stateRef w)) kept
            ∧ Forall (born late_wave m_id (drawn w)) fresh)).
Proof.
  apply (projectiles_interpolate_and_advance late_wave).
  intros n. unfold late_wave. destruct (n <? 50)%nat; discriminate.
Defined.

(** ** C8: the score only grows *)

(** C8.  In every state of every session the score changes as follows.  A
    frame of a game in play is the three loops and then the outcome and the
    spawn (outside [PLAYING] it does nothing).  The loop over the rockets,
    with its impacts, and the loop over the missiles leave the score alone,
    and the second leaves the rockets alone.  The loop over the explosions
    only removes rockets, and it adds exactly 20 points for each rocket it
    removes: the rockets destroyed by an explosion.  The outcome and the
    spawn leave the score alone.  A click leaves the score alone.  The
    round transition adds the ammo bonus, which is not negative.  So no
    action but [InitGame] lowers the score. *)
Theorem score_never_decreases (Math_random : nat → Q) (acts : list Action) :
  let w := play Math_random acts in
  let w1 := rocketsPass Math_random w in
  let w2 := missilesPass Math_random w1 in
  let w3 := explosionsPass Math_random w2 in
  update Math_random w
  = (if bool_decide (status (stateRef w) = PLAYING)
     then checkOutcome Math_random w3 else w)
  ∧ score (stateRef w1) = score (stateRef w)
  ∧ (score (stateRef w2) = score (stateRef w1)
     ∧ rockets (stateRef w2) = rockets (stateRef w1))
  ∧ ((length (rockets (stateRef w3)) <= length (rockets (stateRef w2)))%nat
     ∧ score (stateRef w3)
       = (score (stateRef w2)
          + 20 * (Z.of_nat (length (rockets (stateRef w2)))
                  - Z.of_nat (length (rockets (stateRef w3)))))%Z)
  ∧ score (stateRef (checkOutcome Math_random w3)) = score (stateRef w3)
  ∧ (∀ click, score (stateRef (handleCanvasClick Math_random click w))
              = score (stateRef w))
  ∧ (score (nextRound (stateRef w))
     = (score (stateRef w) + spec_ammo_bonus (turrets (stateRef w)))%Z
     ∧ (0 <= spec_ammo_bonus (turrets (stateRef w)))%Z)
  ∧ ∀ a, a = InitGame
         ∨ (score (stateRef w) <= score (stateRef (perform Math_random w a)))%Z.
Proof.
  cbv zeta. pose proof (sound_play Math_random acts) as [Ht _].
  generalize dependent (play Math_random acts). intros w Ht.
  pose proof (update_loops Math_random w) as Hupd. unfold loops in Hupd.
  pose proof (score_rocketsPass Math_random w) as H1.
  destruct (missilesPass_rockets Math_random (rocketsPass Math_random w))
    as [H2r H2s].
  destruct (explosionsPass_pays Math_random
              (missilesPass Math_random (rocketsPass Math_random w)))
    as [H3l H3s].
  destruct (checkOutcome_settled Math_random
              (explosionsPass Math_random
                 (missilesPass Math_random (rocketsPass Math_random w))))
    as (H4 & _).
  assert (∀ click, score (stateRef (handleCanvasClick Math_random click w))
                   = score (stateRef w)) as Hclick.
  { intros click.
    destruct (decide (status (stateRef w) = PLAYING)) as [E|E];
      [|by rewrite handleCanvasClick_idle].
    by destruct (handleCanvasClick_cases Math_random click w E)
      as [[_ ->] | (j & t & _ & ->)]. }
  pose proof (ammoBonus_nonneg _ Ht) as Hbonus.
  rewrite ammoBonus_spec in Hbonus.
  repeat split; try done.
  - simpl. by rewrite ammoBonus_spec.
  - intros [| |click|]; [by left|right..]; simpl.
    + rewrite ammoBonus_spec. lia.
    + rewrite Hclick. lia.
    + rewrite Hupd. destruct (bool_decide _); [|lia].
      rewrite H4, H3s, H2s, H1. lia.
Qed.

(** ** C9: the round transition does not look at the status *)

(** C9.  [nextRound] gives the same result whatever the status it is
    called in: the score grows by the sum, over the turrets that are not
    destroyed, of their ammo times 5; each of those turrets gets its
    [maxAmmo] as ammo and the destroyed ones stay as they are; the round
    goes up by one, 3 plus the new round rockets are to spawn, and the
    status becomes [PLAYING].  In a game that is [LOST] or [WON] frames and
    clicks do nothing; after [nextRound] the status is [PLAYING], and the
    next frame runs the loops and the outcome again. *)
Theorem nextRound_ignores_status
    (Math_random : nat → Q) (st : GameState) (s : GameStatus) (n : nat) :
  nextRound (set_status s st) = nextRound st
  ∧ status (nextRound st) = PLAYING
  ∧ score (nextRound st) = (score st + spec_ammo_bonus (turrets st))%Z
  ∧ turrets (nextRound st)
    = map (λ t, if t_destroyed t then t
                else mkTurret (t_pos t) (maxAmmo t) (maxAmmo t) false)
        (turrets st)
  ∧ round (nextRound st) = (round st + 1)%Z
  ∧ rocketsToSpawn (nextRound st) = (3 + (round st + 1))%Z
  ∧ Forall
      (λ terminal,
         let w := mkWorld (set_status terminal st) n in
         update Math_random w = w
         ∧ (∀ click, handleCanvasClick Math_random click w = w)
         ∧ perform Math_random w NextRound = mkWorld (nextRound st) n
         ∧ update Math_random (perform Math_random w NextRound)
           = checkOutcome Math_random
               (loops Math_random (mkWorld (nextRound st) n)))
      [LOST; WON].
Proof.
  split; [done|]. split; [done|]. split.
  { simpl. by rewrite ammoBonus_spec. }
  split.
  { simpl. apply map_ext. intros t. unfold refill.
    by destruct (t_destroyed t). }
  split; [done|]. split; [simpl; lia|].
  repeat constructor; try (intros click; by apply handleCanvasClick_idle);
    by rewrite update_loops.
Qed.

(** ** C10: ammunition stays within its bounds *)

(** C10.  In every state of every session each turret has an ammo between
    0 and its [maxAmmo].  A frame changes the ammo and the [maxAmmo] of no
    turret; after the round transition every turret that is not destroyed
    has exactly its [maxAmmo]; a click either changes nothing or takes 1
    from a turret whose ammo was above 0. *)
Theorem ammo_within_bounds (Math_random : nat → Q) (acts : list Action) :
  let w := play Math_random acts in
  Forall (λ t, (0 <= ammo t ∧ ammo t <= maxAmmo t)%Z) (turrets (stateRef w))
  ∧ map supply (turrets (stateRef (update Math_random w)))
    = map supply (turrets (stateRef w))
  ∧ Forall (λ t, t_destroyed t = false → ammo t = maxAmmo t)
      (turrets (nextRound (stateRef w)))
  ∧ ∀ click,
      handleCanvasClick Math_random click w = w
      ∨ ∃ j t,
          turrets (stateRef w) !! j = Some t
          ∧ (0 < ammo t)%Z
          ∧ turrets (stateRef (handleCanvasClick Math_random click w))
            = <[j := mkTurret (t_pos t) (ammo t - 1) (maxAmmo t)
                       (t_destroyed t)]> (turrets (stateRef w)).
Proof.
  cbv zeta. pose proof (sound_play Math_random acts) as [Ht _].
  generalize dependent (play Math_random acts). intros w Ht.
  split; [exact Ht|]. split; [|split].
  - destruct (update_cases Math_random w)
      as [[_ ->] | (_ & w' & Hev & ->)]; [done|].
    destruct (checkOutcome_settled Math_random w') as (_ & _ & _ & -> & _).
    by apply supply_evolves.
  - simpl. apply Forall_map, Forall_forall. intros t _. unfold refill.
    destruct (t_destroyed t) eqn:E; [by rewrite E | done].
  - intros click.
    destruct (decide (status (stateRef w) = PLAYING)) as [E|E];
      [|left; by apply handleCanvasClick_idle].
    destruct (handleCanvasClick_cases Math_random click w E)
      as [[_ ->] | (j & t & (Hj & [_ Ha] & _) & ->)]; [by left|].
    right. by exists j, t.
Qed.

(** * Further properties of the engine *)

(** ** A spawn that finds a target *)

Lemma Qfloor_index (u : Q) (n : nat) :
  0 <= u → u < 1 → (0 < n)%nat →
  (0 <= Qfloor (u * inject_Z (Z.of_nat n)) < Z.of_nat n)%Z.
Proof.
  intros H0 H1 Hn.
  assert (0 < inject_Z (Z.of_nat n)) as Hpos.
  { change 0 with (inject_Z 0). rewrite <- Zlt_Qlt. lia. }
  split.
  - change 0%Z with (Qfloor 0). apply Qfloor_resp_le. nra.
  - rewrite Zlt_Qlt. eapply Qle_lt_trans; [apply Qfloor_le|]. nra.
Qed.

Lemma spawnRocket_finds_target Math_random w :
  status (stateRef w) = PLAYING →
  (0 < rocketsToSpawn (stateRef w))%Z →
  (∀ n, 0 <= Math_random n ∧ Math_random n < 1) →
  liveTargets (stateRef w) ≠ [] →
  ∃ target,
    target ∈ liveTargets (stateRef w)
    ∧ spawnRocket Math_random w
      = mkWorld
          (set_rockets
             (λ rs, rs ++ [launched (stateRef w)
                             (Math_random (S (S (drawn w))))
                             (Math_random (drawn w))
                             (Math_random (S (S (S (drawn w)))))
                             target])
             (set_rocketsToSpawn (λ n, n - 1)%Z (stateRef w)))
          (S (S (S (S (drawn w))))).
Proof.
  intros Hp Hn Hrnd Hlive.
  unfold spawnRocket. cbv zeta.
  rewrite bool_decide_eq_true_2 by done.
  replace (rocketsToSpawn (stateRef w) <=? 0)%Z with false
    by (symmetry; apply Z.leb_gt; lia).
  simpl negb. cbv iota. unfold random. cbv beta iota.
  fold (liveTargets (stateRef w)).
  destruct (liveTargets (stateRef w)) as [|p ps] eqn:El; [done|].
  rewrite <- El in *. clear Hlive.
  replace (length (liveTargets (stateRef w)) =? 0)%nat with false
    by (rewrite El; done).
  destruct (Hrnd (S (drawn w))) as [H0 H1].
  pose proof (Qfloor_index _ (length (liveTargets (stateRef w))) H0 H1)
    as Hi.
  rewrite El in Hi at 1. specialize (Hi ltac:(simpl; lia)).
  cbn [drawn stateRef on_state] in *.
  replace (_ <? 0)%Z with false by (symmetry; apply Z.ltb_ge; lia).
  destruct (liveTargets (stateRef w) !! _) as [target|] eqn:Ht.
  - exists target. split; [by eapply list_elem_of_lookup_2 | done].
  - apply lookup_ge_None in Ht. lia.
Qed.



(** ** The status and the state agree *)

Lemma roundOver_true st :
  roundOver st = true ↔
  rocketsToSpawn st = 0%Z ∧ rockets st = [] ∧ explosions st = [].
Proof.
  unfold roundOver.
  rewrite !andb_true_iff, Z.eqb_eq, !Nat.eqb_eq, !length_zero_iff_nil.
  tauto.
Qed.

Lemma told_verdict st :
  status st = PLAYING → told (set_status (verdict st) st).
Proof.
  intros Hp. unfold told, verdict. simpl.
  destruct (WIN_SCORE <=? score st)%Z eqn:Hw; simpl.
  { by apply Z.leb_le. }
  apply Z.leb_gt in Hw.
  destruct (roundOver st) eqn:Hr; simpl.
  { apply roundOver_true in Hr. tauto. }
  by destruct (forallb t_destroyed (turrets st)) eqn:Ha.
Qed.

Lemma told_perform Math_random w a :
  told (stateRef w) → told (stateRef (perform Math_random w a)).
Proof.
  intros Ht. destruct (decide (status (stateRef w) = PLAYING)) as [Hp|Hp].
  - destruct a as [| |click|]; simpl; try done.
    + destruct (handleCanvasClick_cases Math_random click w Hp)
        as [[_ ->] | (j & t & _ & ->)]; [done|].
      unfold told. simpl. by rewrite Hp.
    + destruct (update_playing Math_random w Hp) as (w' & _ & Hp' & ->).
      destruct (checkOutcome_cases Math_random w' Hp')
        as [-> | (_ & Hn & ->)]; [by apply told_verdict|].
      destruct (spawnRocket_cases Math_random
                  (mkWorld (stateRef w') (S (drawn w'))) Hp' Hn)
        as [-> | (target & _ & ->)]; unfold told; simpl; by rewrite Hp'.
  - destruct a as [| |click|]; simpl; try done.
    + by rewrite handleCanvasClick_idle.
    + by destruct (update_cases Math_random w) as [[_ ->] | (? & _)].
Qed.

(** X1.  In every state of every session the status is backed by the
    state: [WON] only with a score of at least [WIN_SCORE]; [ROUND_END]
    only with a lower score, no rocket left to spawn, no rocket and no
    explosion (missiles may still fly); [LOST] only with every turret
    destroyed and a lower score; [START] only before the first game. *)
Theorem status_is_backed (Math_random : nat → Q) (acts : list Action) :
  told (stateRef (play Math_random acts)).
Proof.
  apply (play_invariant Math_random (λ w, told (stateRef w))); [done|].
  intros w a. apply told_perform.
Qed.

Lemma verdict_set_status s st : verdict (set_status s st) = verdict st.
Proof. done. Qed.

(** X2.  After a frame of a game in play, with draws in [0, 1), the status
    is exactly the verdict of the state the frame ends in: [WON] when the
    score is at least [WIN_SCORE]; otherwise [ROUND_END] when nothing is
    left to spawn and no rocket or explosion remains; otherwise [LOST] when
    every turret is destroyed; otherwise still [PLAYING]. *)
Theorem update_status_is_verdict (Math_random : nat → Q) (w : World) :
  status (stateRef w) = PLAYING →
  (∀ n, 0 <= Math_random n ∧ Math_random n < 1) →
  status (stateRef (update Math_random w))
  = verdict (stateRef (update Math_random w)).
Proof.
  intros Hp Hrnd.
  destruct (update_playing Math_random w Hp) as (w' & _ & Hp' & ->).
  destruct (checkOutcome_cases Math_random w' Hp')
    as [-> | (Hv & Hn & ->)]; [by rewrite verdict_set_status|].
  assert (liveTargets (stateRef w') ≠ []) as Hlive.
  { unfold verdict in Hv.
    destruct (WIN_SCORE <=? _)%Z; [done|].
    destruct (roundOver _); [done|].
    destruct (forallb t_destroyed (turrets (stateRef w'))) eqn:Ha; [done|].
    unfold liveTargets. intros Hnil. apply app_eq_nil in Hnil as [_ Hnil].
    apply map_eq_nil in Hnil.
    assert (Forall (λ t, t_destroyed t = true) (turrets (stateRef w')))
      as Hall.
    { apply Forall_forall. intros t Hin.
      destruct (t_destroyed t) eqn:Hd; [done|].
      assert (t ∈ filter (λ t, t_destroyed t = false) (turrets (stateRef w')))
        as Hf by (by apply list_elem_of_filter).
      rewrite Hnil in Hf. by apply elem_of_nil in Hf. }
    rewrite <- not_true_iff_false in Ha. destruct Ha.
    apply forallb_forall. intros t Hin%list_elem_of_In.
    by apply (proj1 (Forall_forall _ _) Hall). }
  destruct (spawnRocket_finds_target Math_random
              (mkWorld (stateRef w') (S (drawn w'))) Hp' Hn Hrnd Hlive)
    as (r & _ & ->).
  simpl. unfold verdict in *. simpl.
  destruct (WIN_SCORE <=? _)%Z; [done|].
  replace (roundOver _) with false.
  - destruct (roundOver _); [done|].
    by destruct (forallb t_destroyed (turrets (stateRef w'))).
  - unfold roundOver. simpl. rewrite length_app. simpl.
    replace (length (rockets (stateRef w')) + 1 =? 0)%nat with false
      by (symmetry; apply Nat.eqb_neq; lia).
    by rewrite andb_false_r.
Qed.

(** The first frame of a new game: nothing is decided, the game stays in
    play. *)
Lemma update_status_is_verdict_witness :
  status (stateRef (update quiet (play quiet [InitGame])))
  = verdict (stateRef (update quiet (play quiet [InitGame]))).
Proof.
  apply (update_status_is_verdict quiet (play quiet [InitGame])).
  - reflexivity.
  - intros n. split; reflexivity || discriminate.
Defined.

(** ** The counters of the waves *)

Lemma counted_perform Math_random w a :
  counted (stateRef w) → counted (stateRef (perform Math_random w a)).
Proof.
  unfold counted. intros Hc. destruct a as [| |click|]; simpl.
  - lia.
  - lia.
  - destruct (decide (status (stateRef w) = PLAYING)) as [Hp|Hp];
      [|by rewrite handleCanvasClick_idle].
    by destruct (handleCanvasClick_cases Math_random click w Hp)
      as [[_ ->] | (j & t & _ & ->)].
  - destruct (update_cases Math_random w)
      as [[_ ->] | (Hp & w' & Hev & ->)]; [done|].
    destruct (standing_evolves _ _ Hev) as (Hs & Hr & Hn).
    rewrite Hp in Hs. rewrite <- Hr, <- Hn in Hc.
    destruct (checkOutcome_cases Math_random w' Hs)
      as [-> | (_ & Hpos & ->)]; [done|].
    destruct (spawnRocket_cases Math_random
                (mkWorld (stateRef w') (S (drawn w'))) Hs Hpos)
      as [-> | (target & _ & ->)]; simpl; lia.
Qed.

(** X6.  In every state of every session the round is at least 1 and the
    number of rockets left to spawn lies between 0 and 3 plus the round. *)
Theorem wave_counters_bounded (Math_random : nat → Q) (acts : list Action) :
  let st := stateRef (play Math_random acts) in
  (1 <= round st)%Z
  ∧ (0 <= rocketsToSpawn st)%Z
  ∧ (rocketsToSpawn st <= 3 + round st)%Z.
Proof.
  cbv zeta.
  assert (counted (stateRef (play Math_random acts))) as (? & ? & ?); [|done].
  apply (play_invariant Math_random (λ w, counted (stateRef w))).
  - unfold counted. simpl. lia.
  - intros w a. apply counted_perform.
Qed.

(** ** Cities and turrets stay where they are and stay destroyed *)

Lemma Forall2_map_same {A} (R : A → A → Prop) (f : A → A) (l : list A) :
  (∀ a, R a (f a)) → Forall2 R l (map f l).
Proof. intros H. induction l; simpl; constructor; auto. Qed.

Lemma persists_refl st : persists st st.
Proof. split; by apply Forall2_same. Qed.

Lemma persists_trans st1 st2 st3 :
  persists st1 st2 → persists st2 st3 → persists st1 st3.
Proof.
  intros [Hc Ht] [Hc' Ht']. split.
  - eapply Forall2_trans; [|exact Hc|exact Hc'].
    intros c1 c2 c3 [? ?] [? ?]. split; [congruence|auto].
  - eapply Forall2_trans; [|exact Ht|exact Ht'].
    intros t1 t2 t3 (? & ? & ?) (? & ? & ?).
    repeat split; [congruence|congruence|auto].
Qed.

Lemma persists_mutation st st' : mutation st st' → persists st st'.
Proof.
  intros Hmut.
  destruct Hmut as [i r H|i|i m H|i|id pos m H|i e H|target|target|i r id H];
    try (split; simpl; by apply Forall2_same).
  - destruct (finished (pulse e)); split; simpl; by apply Forall2_same.
  - split; simpl; [|by apply Forall2_same].
    apply Forall2_map_same. intros c. unfold hitCity.
    by destruct (_ && _ && _).
  - split; simpl; [by apply Forall2_same|].
    apply Forall2_map_same. intros t. unfold hitTurret.
    by destruct (_ && _ && _).
Qed.

Lemma persists_evolves w w' :
  evolves w w' → persists (stateRef w) (stateRef w').
Proof.
  unfold evolves. destruct w as [st0 ?], w' as [st' ?]. simpl. revert st'.
  apply (rtc_ind_r (λ st', persists st0 st')).
  - apply persists_refl.
  - intros st1 st2 _ Hmut H. eapply persists_trans; [exact H|].
    by apply persists_mutation.
Qed.

Lemma persists_settled Math_random st st' :
  settled Math_random st st' → persists st st'.
Proof.
  intros (_ & _ & _ & Ht & Hc & _). unfold persists. rewrite Ht, Hc.
  apply persists_refl.
Qed.

Lemma persists_handleCanvasClick Math_random click w :
  persists (stateRef w) (stateRef (handleCanvasClick Math_random click w)).
Proof.
  destruct (decide (status (stateRef w) = PLAYING)) as [Hp|Hp];
    [|rewrite handleCanvasClick_idle by done; apply persists_refl].
  destruct (handleCanvasClick_cases Math_random click w Hp)
    as [[_ ->] | (j & t & (Hj & _) & ->)]; [apply persists_refl|].
  split; simpl; [by apply Forall2_same|].
  rewrite <- (list_insert_id _ _ _ Hj) at 1.
  apply Forall2_insert; [by apply Forall2_same | done].
Qed.

Lemma persists_perform Math_random w a :
  a = InitGame ∨ persists (stateRef w) (stateRef (perform Math_random w a)).
Proof.
  destruct a as [| |click|]; [by left|right..]; simpl.
  - split; simpl; [by apply Forall2_same|].
    apply Forall2_map_same. intros t. unfold refill.
    destruct (t_destroyed t) eqn:E; simpl; repeat split; congruence.
  - apply persists_handleCanvasClick.
  - destruct (update_cases Math_random w)
      as [[_ ->] | (_ & w' & Hev & ->)]; [apply persists_refl|].
    eapply persists_trans; [by apply persists_evolves|].
    eapply persists_settled, checkOutcome_settled.
Qed.

(** X3.  Whatever is done to a state, apart from starting a new game, the
    cities and turrets keep their number, order and positions, the turrets
    their [maxAmmo], and what was destroyed stays destroyed. *)
Theorem destruction_is_final
    (Math_random : nat → Q) (w : World) (a : Action) :
  a = InitGame
  ∨ (Forall2
       (λ c c', c_pos c' = c_pos c
                ∧ (c_destroyed c = true → c_destroyed c' = true))
       (cities (stateRef w))
       (cities (stateRef (perform Math_random w a)))
     ∧ Forall2
         (λ t t', t_pos t' = t_pos t ∧ maxAmmo t' = maxAmmo t
                  ∧ (t_destroyed t = true → t_destroyed t' = true))
         (turrets (stateRef w))
         (turrets (stateRef (perform Math_random w a)))).
Proof. apply persists_perform. Qed.

Lemma Forall2_map_eq {A B} (f : A → B) (R : A → A → Prop) (l k : list A) :
  (∀ a b, R a b → f b = f a) → Forall2 R l k → map f k = map f l.
Proof.
  intros H HF. induction HF; simpl; [done|]. f_equal; auto.
Qed.

Lemma laid_out_perform Math_random w a :
  laid_out (stateRef w) → laid_out (stateRef (perform Math_random w a)).
Proof.
  intros Hl.
  destruct (persists_perform Math_random w a) as [-> | [Hc Ht]].
  { right. by repeat split. }
  pose proof (Forall2_map_eq c_pos _ _ _ (λ _ _ H, proj1 H) Hc) as Ec.
  pose proof (Forall2_map_eq t_pos _ _ _ (λ _ _ H, proj1 H) Ht) as Et.
  pose proof (Forall2_map_eq maxAmmo _ _ _ (λ _ _ H, proj1 (proj2 H)) Ht)
    as Em.
  destruct Hl as [[Hc0 Ht0] | (H1 & H2 & H3)].
  - left. rewrite Hc0 in Hc. rewrite Ht0 in Ht.
    apply Forall2_nil_inv_l in Hc, Ht. done.
  - right. rewrite Ec, Et, Em. done.
Qed.

Lemma laid_out_play Math_random acts :
  laid_out (stateRef (play Math_random acts)).
Proof.
  apply (play_invariant Math_random (λ w, laid_out (stateRef w))).
  - by left.
  - intros w a. apply laid_out_perform.
Qed.

(** ** An impact destroys what it was aimed at, and nothing else *)

Ltac layout_cases l H :=
  repeat (destruct l as [|[? ?] l]; try discriminate H);
  simpl in H; injection H as ?; subst.

Ltac flag_cases :=
  split;
  repeat match goal with b : bool |- _ => destruct b end;
  vm_compute; reflexivity.

Ltac by_index i H tac :=
  simpl in H;
  first
    [ discriminate H
    | destruct i as [|i]; [injection H as <-; tac | by_index i H tac] ].

(** X8.  In every state of every session, the damage test of a rocket that
    lands on the position of a city marks that city and nothing else, and
    that of a rocket that lands on the position of a turret marks that
    turret and nothing else: the cities and turrets of the layout are too
    far apart for one impact to reach two of them. *)
Theorem impact_hits_its_target_only
    (Math_random : nat → Q) (acts : list Action) :
  let st := stateRef (play Math_random acts) in
  (∀ i c, cities st !! i = Some c →
     map (hitCity (c_pos c)) (cities st)
     = <[i := mkCity (c_pos c) true]> (cities st)
     ∧ map (hitTurret (c_pos c)) (turrets st) = turrets st)
  ∧ (∀ j t, turrets st !! j = Some t →
       map (hitTurret (t_pos t)) (turrets st)
       = <[j := mkTurret (t_pos t) (ammo t) (maxAmmo t) true]> (turrets st)
       ∧ map (hitCity (t_pos t)) (cities st) = cities st).
Proof.
  cbv zeta. destruct (laid_out_play Math_random acts)
    as [[Hc Ht] | (Hc & Ht & _)].
  { rewrite Hc, Ht. split; intros i c H; by rewrite lookup_nil in H. }
  generalize dependent (stateRef (play Math_random acts)). intros st Hc Ht.
  destruct (cities st) as [|c0 cs]; [discriminate Hc|].
  destruct (turrets st) as [|t0 ts]; [discriminate Ht|].
  revert Hc Ht. generalize (c0 :: cs) (t0 :: ts). clear. intros cs ts Hc Ht.
  layout_cases cs Hc. layout_cases ts Ht.
  split.
  - intros i c H. by_index i H flag_cases.
  - intros j t H. by_index j H flag_cases.
Qed.

(** ** Explosions in the state are alive *)

Lemma burning_mutation st st' :
  Forall burning (explosions st) → mutation st st' →
  Forall burning (explosions st').
Proof.
  intros He Hmut.
  destruct Hmut as [i r H|i|i m H|i|id pos m H|i e H|target|target|i r id H];
    simpl; try done.
  - apply Forall_app. split; [done|]. constructor; [by split|constructor].
  - pose proof (Forall_lookup_1 _ _ _ _ He H) as [Hf Hm].
    destruct (finished (pulse e)) eqn:Hfin; simpl.
    + rewrite delete_insert_same. by apply Forall_delete.
    + apply Forall_insert; [done|]. split; [done|].
      unfold pulse. by destruct (growing e).
  - apply Forall_app. split; [done|].
    constructor; [split; [done | by right]|constructor].
Qed.

(** X5.  In every state of every session no explosion is marked finished
    (a finished one is removed by the frame that finishes it), and every
    explosion has [maxRadius] 40, from an impact, or 20, from a rocket shot
    down. *)
Theorem explosions_are_unfinished
    (Math_random : nat → Q) (acts : list Action) :
  Forall
    (λ e, finished e = false
          ∧ (maxRadius e = EXPLOSION_MAX_RADIUS
             ∨ maxRadius e = EXPLOSION_MAX_RADIUS / 2))
    (explosions (stateRef (play Math_random acts))).
Proof.
  apply (play_invariant Math_random
           (λ w, Forall burning (explosions (stateRef w)))); [constructor|].
  intros w [| |click|] Hb; simpl; try done.
  - destruct (decide (status (stateRef w) = PLAYING)) as [Hp|Hp];
      [|by rewrite handleCanvasClick_idle].
    by destruct (handleCanvasClick_cases Math_random click w Hp)
      as [[_ ->] | (j & t & _ & ->)].
  - destruct (update_cases Math_random w)
      as [[_ ->] | (_ & w' & Hev & ->)]; [done|].
    destruct (checkOutcome_settled Math_random w') as (_ & _ & -> & _).
    unfold evolves in Hev. destruct w as [st0 ?], w' as [st' ?].
    simpl in *. revert st' Hev.
    apply (rtc_ind_r (λ st', Forall burning (explosions st'))); [done|].
    intros st1 st2 _ Hmut H. by eapply burning_mutation.
Qed.

(** ** Projectiles in the state have not arrived *)

Lemma airborne_updateRocket Math_random r index w :
  airborne (stateRef w) →
  airborne (stateRef (updateRocket Math_random r index w)).
Proof.
  intros [Hr Hm]. unfold updateRocket. cbv zeta.
  destruct (Qle_bool 1 (r_progress (moveRocket r))) eqn:E.
  - unfold random. cbv beta iota. split; simpl; [|done].
    rewrite delete_insert_same. by apply Forall_delete.
  - split; simpl; [|done]. apply Forall_insert; [done|].
    by apply Qle_bool_gt.
Qed.

Lemma airborne_updateMissile Math_random m index w :
  airborne (stateRef w) →
  airborne (stateRef (updateMissile Math_random m index w)).
Proof.
  intros [Hr Hm]. unfold updateMissile. cbv zeta.
  destruct (Qle_bool 1 (m_progress (moveMissile m))) eqn:E.
  - unfold random. cbv beta iota. split; simpl; [done|].
    rewrite delete_insert_same. by apply Forall_delete.
  - split; simpl; [done|]. apply Forall_insert; [done|].
    by apply Qle_bool_gt.
Qed.

Lemma airborne_updateExplosion Math_random e index w :
  airborne (stateRef w) →
  airborne (stateRef (updateExplosion Math_random e index w)).
Proof.
  intros Ha. unfold updateExplosion. cbv zeta.
  destruct (finished (pulse e)); [by destruct Ha|].
  apply (forEach_invariant _ _ (λ w, airborne (stateRef w)));
    [|by destruct Ha].
  intros r rIdx w' _ [Hr Hm]. unfold collide. cbv zeta.
  destruct (sqrt_ltb _ _); [|done].
  unfold random. cbv beta iota. split; simpl; [|done].
  by apply Forall_delete.
Qed.

Lemma airborne_update Math_random w :
  airborne (stateRef w) → airborne (stateRef (update Math_random w)).
Proof.
  intros Ha. unfold update. destruct (negb _); [done|]. cbv zeta.
  match goal with
  | |- airborne (stateRef (checkOutcome _ ?w1)) =>
      assert (airborne (stateRef w1)) as [Hr Hm];
      [|destruct (checkOutcome_settled Math_random w1)
          as (_ & Hms & _ & _ & _ & _ & Hrs)]
  end.
  - apply (forEach_invariant _ _ (λ w, airborne (stateRef w)));
      [intros; by apply airborne_updateExplosion|].
    apply (forEach_invariant _ _ (λ w, airborne (stateRef w)));
      [intros; by apply airborne_updateMissile|].
    apply (forEach_invariant _ _ (λ w, airborne (stateRef w)));
      [intros; by apply airborne_updateRocket | done].
  - split; [|by rewrite Hms].
    destruct Hrs as [-> | (i & j & k & target & ->)]; [done|].
    apply Forall_app. split; [done|]. by repeat constructor.
Qed.

Lemma airborne_play Math_random acts :
  airborne (stateRef (play Math_random acts)).
Proof.
  apply (play_invariant Math_random (λ w, airborne (stateRef w)));
    [by split|].
  intros w [| |click|] Ha; simpl; try done.
  - destruct (decide (status (stateRef w) = PLAYING)) as [Hp|Hp];
      [|by rewrite handleCanvasClick_idle].
    destruct (handleCanvasClick_cases Math_random click w Hp)
      as [[_ ->] | (j & t & _ & ->)]; [done|].
    destruct Ha as [Hr Hm]. split; simpl; [done|].
    apply Forall_app. split; [done|]. by repeat constructor.
  - by apply airborne_update.
Qed.

Lemma forward_mutation st st' : forward st → mutation st st' → forward st'.
Proof.
  intros (Hr & Hm & Hn) Hmut.
  destruct Hmut as [i r H|i|i m H|i|id pos m H|i e H|target|target|i r id H];
    try (split; [|split]; simpl; assumption).
  - split; [|split]; simpl; try done. apply Forall_insert; [done|].
    destruct (Forall_lookup_1 _ _ _ _ Hr H). simpl. split; lra.
  - split; [|split]; simpl; try done. by apply Forall_delete.
  - split; [|split]; simpl; try done. apply Forall_insert; [done|].
    destruct (Forall_lookup_1 _ _ _ _ Hm H). simpl. split; lra.
  - split; [|split]; simpl; try done. by apply Forall_delete.
  - by destruct (finished (pulse e)).
  - split; [|split]; simpl; try done. by apply Forall_delete.
Qed.

Lemma forward_perform Math_random w a :
  (∀ n, 0 <= Math_random n) →
  forward (stateRef w) → forward (stateRef (perform Math_random w a)).
Proof.
  intros Hrnd (Hr & Hm & Hn). destruct a as [| |click|]; simpl.
  - split; [|split]; simpl; [constructor|constructor|lia].
  - split; [|split]; simpl; try done. lia.
  - destruct (decide (status (stateRef w) = PLAYING)) as [Hp|Hp];
      [|by rewrite handleCanvasClick_idle].
    destruct (handleCanvasClick_cases Math_random click w Hp)
      as [[_ ->] | (j & t & _ & ->)]; [done|].
    split; [|split]; simpl; try done.
    apply Forall_app. split; [done|].
    constructor; [|constructor]. simpl. unfold MISSILE_SPEED. split; lra.
  - destruct (update_cases Math_random w)
      as [[_ ->] | (_ & w' & Hev & ->)]; [done|].
    assert (forward (stateRef w')) as (Hr' & Hm' & Hn').
    { unfold evolves in Hev. destruct w as [st0 ?], w' as [st' ?].
      simpl in *. revert st' Hev.
      apply (rtc_ind_r (λ st', forward st')); [done|].
      intros st1 st2 _ Hmut H. by eapply forward_mutation. }
    destruct (checkOutcome_settled Math_random w')
      as (_ & Hms & _ & _ & _ & Hrd & Hrs).
    split; [|split]; [|by rewrite Hms|by rewrite Hrd].
    destruct Hrs as [-> | (i & j & k & target & ->)]; [done|].
    apply Forall_app. split; [done|]. constructor; [|constructor].
    split; [simpl; lra|].
    by apply (rocket_flying_launched (stateRef w')).
Qed.

(** X4.  With draws that are not negative, in every state of every session
    the progress of each rocket and of each missile is at least 0 and
    below 1: a projectile whose progress reaches 1 is removed by the frame
    in which it does. *)
Theorem projectiles_are_under_way
    (Math_random : nat → Q) (acts : list Action) :
  (∀ n, 0 <= Math_random n) →
  let st := stateRef (play Math_random acts) in
  Forall (λ r, 0 <= r_progress r ∧ r_progress r < 1) (rockets st)
  ∧ Forall (λ m, 0 <= m_progress m ∧ m_progress m < 1) (missiles st).
Proof.
  intros Hrnd. cbv zeta.
  destruct (airborne_play Math_random acts) as [Hr1 Hm1].
  assert (forward (stateRef (play Math_random acts))) as (Hr0 & Hm0 & _).
  { apply (play_invariant Math_random (λ w, forward (stateRef w))).
    - split; [|split]; simpl; [constructor|constructor|lia].
    - intros w a. by apply forward_perform. }
  split; apply Forall_forall; intros p Hp.
  - split; [apply (proj1 (Forall_forall _ _) Hr0 p Hp)
           |apply (proj1 (Forall_forall _ _) Hr1 p Hp)].
  - split; [apply (proj1 (Forall_forall _ _) Hm0 p Hp)
           |apply (proj1 (Forall_forall _ _) Hm1 p Hp)].
Qed.

Lemma projectiles_are_under_way_witness :
  let st := stateRef (play late_wave ([InitGame; CanvasClick (mkPoint 0 0)]
                                      ++ repeat Frame 50)) in
  Forall (λ r, 0 <= r_progress r ∧ r_progress r < 1) (rockets st)
  ∧ Forall (λ m, 0 <= m_progress m ∧ m_progress m < 1) (missiles st).
Proof.
  apply (projectiles_are_under_way late_wave).
  intros n. unfold late_wave. destruct (n <? 50)%nat; discriminate.
Defined.

(** ** Where rockets aim and where missiles come from *)

Lemma lookup_map {A B} (f : A → B) (l : list A) i :
  map f l !! i = f <$> l !! i.
Proof. revert i. induction l; intros [|i]; simpl; auto. Qed.

Lemma map_insert_same {A B} (f : A → B) (l : list A) i a a' :
  l !! i = Some a → f a' = f a → map f (<[i := a']> l) = map f l.
Proof.
  revert i. induction l as [|b l IH]; intros [|i] H E; simpl in *; try done.
  - injection H as ->. by rewrite E.
  - f_equal. by apply IH.
Qed.

Lemma elem_of_map_filter {A B} (f : A → B) (P : A → Prop)
    `{∀ a, Decision (P a)} (l : list A) b :
  b ∈ map f (filter P l) → b ∈ map f l.
Proof.
  induction l as [|a l IH]; [done|]. rewrite filter_cons.
  destruct (decide (P a)); simpl; rewrite ?elem_of_cons; intuition.
Qed.

Lemma liveTargets_positions st p :
  p ∈ liveTargets st → p ∈ map c_pos (cities st) ++ map t_pos (turrets st).
Proof.
  unfold liveTargets. rewrite !elem_of_app.
  intros [H|H]; [left|right].
  - exact (elem_of_map_filter c_pos (λ c, c_destroyed c = false) _ _ H).
  - exact (elem_of_map_filter t_pos (λ t, t_destroyed t = false) _ _ H).
Qed.

Lemma positions_persist st st' :
  persists st st' →
  map c_pos (cities st') = map c_pos (cities st)
  ∧ map t_pos (turrets st') = map t_pos (turrets st).
Proof.
  intros [Hc Ht]. split.
  - exact (Forall2_map_eq c_pos _ _ _ (λ _ _ H, proj1 H) Hc).
  - exact (Forall2_map_eq t_pos _ _ _ (λ _ _ H, proj1 H) Ht).
Qed.

Lemma aimed_intro st st' :
  persists st st' →
  Forall (rocket_aimed st) (rockets st') →
  Forall (missile_sourced st) (missiles st') →
  aimed st'.
Proof.
  intros [Ec Et]%positions_persist Hr Hm.
  unfold aimed, rocket_aimed, missile_sourced in *. by rewrite Ec, Et.
Qed.

Lemma aimed_mutation st st' : aimed st → mutation st st' → aimed st'.
Proof.
  intros [Hr Hm] Hmut.
  apply (aimed_intro st); [by apply persists_mutation|..];
    destruct Hmut
      as [i r H|i|i m H|i|id pos m H|i e H|target|target|i r id H];
    simpl; try done; try (by apply Forall_delete).
  - apply Forall_insert; [done|]. exact (Forall_lookup_1 _ _ _ _ Hr H).
  - by destruct (finished (pulse e)).
  - apply Forall_insert; [done|]. exact (Forall_lookup_1 _ _ _ _ Hm H).
  - by destruct (finished (pulse e)).
Qed.

Lemma aimed_perform Math_random w a :
  aimed (stateRef w) → aimed (stateRef (perform Math_random w a)).
Proof.
  intros Ha. destruct a as [| |click|]; simpl.
  - split; constructor.
  - destruct Ha as [Hr Hm]. apply (aimed_intro (stateRef w)); [|done..].
    split; simpl; [by apply Forall2_same|].
    apply Forall2_map_same. intros t. unfold refill.
    destruct (t_destroyed t) eqn:E; simpl; repeat split; congruence.
  - pose proof (persists_handleCanvasClick Math_random click w) as Hper.
    destruct (decide (status (stateRef w) = PLAYING)) as [Hp|Hp];
      [|by rewrite handleCanvasClick_idle].
    destruct (handleCanvasClick_cases Math_random click w Hp)
      as [[_ ->] | (j & t & (Hj & _) & Heq)]; [done|].
    rewrite Heq in *. destruct Ha as [Hr Hm].
    apply (aimed_intro (stateRef w)); [done|done|]. simpl.
    apply Forall_app. split; [done|]. constructor; [|constructor].
    repeat split; simpl; [lia|].
    by rewrite Nat2Z.id, lookup_map, Hj.
  - destruct (decide (status (stateRef w) = PLAYING)) as [Hp|Hp];
      [|by destruct (update_cases Math_random w) as [[_ ->] | (? & _)]].
    destruct (update_playing Math_random w Hp) as (w' & Hev & Hp' & ->).
    assert (aimed (stateRef w')) as Ha'.
    { unfold evolves in Hev. destruct w as [st0 ?], w' as [st' ?].
      simpl in *. revert st' Hev Hp'.
      apply (rtc_ind_r (λ st', status st' = PLAYING → aimed st')); [done|].
      intros st1 st2 _ Hmut H Hp2. eapply aimed_mutation; [|done].
      apply H. by destruct (standing_mutation _ _ Hmut) as (<- & _). }
    destruct Ha' as [Hr Hm].
    assert (∀ st', cities st' = cities (stateRef w') →
                   turrets st' = turrets (stateRef w') →
                   persists (stateRef w') st') as Hsame.
    { intros st' Ec Et. unfold persists. rewrite Ec, Et.
      apply persists_refl. }
    destruct (checkOutcome_cases Math_random w' Hp')
      as [-> | (_ & Hn & ->)].
    { apply (aimed_intro (stateRef w')); [by apply Hsame|done..]. }
    destruct (spawnRocket_cases Math_random
                (mkWorld (stateRef w') (S (drawn w'))) Hp' Hn)
      as [-> | (target & Hin & ->)]; simpl in *.
    { apply (aimed_intro (stateRef w')); [by apply Hsame|done..]. }
    apply (aimed_intro (stateRef w')); [by apply Hsame| |done].
    simpl. apply Forall_app. split; [done|]. constructor; [|constructor].
    split; [done|]. by apply liveTargets_positions.
Qed.

(** X9.  In every state of every session each rocket started on the top
    edge (y = 0) and is aimed at the position of one of the cities or
    turrets of the state, alive or not; each missile has the speed
    [MISSILE_SPEED], and its [sourceTurretIndex] is the index of a turret
    of the state that stands where the missile started. *)
Theorem projectiles_have_sound_ends
    (Math_random : nat → Q) (acts : list Action) :
  let st := stateRef (play Math_random acts) in
  Forall
    (λ r, y (r_start r) = 0
          ∧ r_target r ∈ map c_pos (cities st) ++ map t_pos (turrets st))
    (rockets st)
  ∧ Forall
      (λ m, m_speed m = MISSILE_SPEED
            ∧ (0 <= sourceTurretIndex m)%Z
            ∧ map t_pos (turrets st) !! Z.to_nat (sourceTurretIndex m)
              = Some (m_start m))
      (missiles st).
Proof.
  cbv zeta.
  apply (play_invariant Math_random (λ w, aimed (stateRef w)));
    [split; constructor|].
  intros w a. apply aimed_perform.
Qed.

(** ** No entity is evaluated twice in a frame *)

Lemma forEach_from_indexed {St X : Type} (arr : St → list X)
    (callback : X → nat → St → St) (P : nat → St → Prop) :
  (∀ v k s, arr s !! k = Some v → P k s → P (S k) (callback v k s)) →
  (∀ k s, arr s !! k = None → P k s → P (S k) s) →
  ∀ len k s, P k s → P (len + k)%nat (forEach_from arr callback len k s).
Proof.
  intros Hcb Hnone len. induction len as [|len IH]; intros k s Hs; simpl;
    [done|].
  replace (S (len + k)) with (len + S k)%nat by lia.
  apply IH. destruct (arr s !! k) eqn:E; eauto.
Qed.

Lemma walked_start {A} (step : A → A) (before : A → Prop) (l : list A) :
  Forall before l → walked step before 0 l.
Proof. intros Hl i a H. left. by eapply Forall_lookup_1. Qed.

Lemma walked_push {A} (step : A → A) (before : A → Prop) (now : list A) k a :
  before a → walked step before k now → walked step before k (now ++ [a]).
Proof.
  intros Ha H i a' [Hi | [_ ->]]%lookup_snoc_Some; [by apply H | by left].
Qed.

Lemma walked_skip {A} (step : A → A) (before : A → Prop) (now : list A) k :
  walked step before k now → walked step before (S k) now.
Proof.
  intros H i a Hi. destruct (H i a Hi) as [?|(? & ?)]; [by left|right].
  split; [lia|done].
Qed.

Lemma walked_insert {A} (step : A → A) (before : A → Prop) (now : list A)
    k a :
  now !! k = Some a → walked step before k now →
  walked step before (S k) (<[k := step a]> now).
Proof.
  intros Hk H i a' Hi.
  apply list_lookup_insert_Some in Hi as [(Heq & <- & _) | (Hne & Hi)].
  - right. split; [lia|]. exists a. split; [|done].
    destruct (H k a Hk) as [?|(? & _)]; [done|lia].
  - destruct (H i a' Hi) as [?|(? & ?)]; [by left|right].
    split; [lia|done].
Qed.

Lemma walked_delete {A} (step : A → A) (before : A → Prop) (now : list A) k :
  walked step before k now → walked step before (S k) (delete k now).
Proof.
  intros H i a' Hi. rewrite list_lookup_delete in Hi.
  destruct (decide (i < k)%nat) as [Hlt|Hge].
  - destruct (H i a' Hi) as [?|(? & ?)]; [by left|right].
    split; [lia|done].
  - destruct (H (S i) a' Hi) as [?|(? & _)]; [by left|lia].
Qed.

Lemma walked_end {A} (step : A → A) (before : A → Prop) (now : list A) k a' :
  walked step before k now → a' ∈ now →
  before a' ∨ ∃ a, before a ∧ a' = step a.
Proof.
  intros H [i Hi]%list_elem_of_lookup.
  destruct (H i a' Hi) as [?|(_ & ?)]; auto.
Qed.

Lemma rockets_walked Math_random w :
  let w1 := forEach (λ w, rockets (stateRef w)) (updateRocket Math_random) w in
  (∀ r', r' ∈ rockets (stateRef w1) →
     r' ∈ rockets (stateRef w)
     ∨ ∃ r, r ∈ rockets (stateRef w) ∧ r' = moveRocket r)
  ∧ missiles (stateRef w1) = missiles (stateRef w).
Proof.
  cbv zeta. unfold forEach.
  pose proof
    (forEach_from_indexed (λ w, rockets (stateRef w))
       (updateRocket Math_random)
       (λ k w', walked moveRocket (λ r, r ∈ rockets (stateRef w)) k
                  (rockets (stateRef w'))
                ∧ missiles (stateRef w') = missiles (stateRef w))) as Hloop.
  destruct (Hloop) with (len := length (rockets (stateRef w)))
                        (k := 0%nat) (s := w) as [Hw Hm].
  - intros r k w' Hk [Hw Hm]. unfold updateRocket. cbv zeta.
    destruct (Qle_bool 1 _).
    + unfold random. cbv beta iota. simpl. split; [|done].
      rewrite delete_insert_same. by apply walked_delete.
    + simpl. split; [|done]. by apply walked_insert.
  - intros k w' _ [Hw Hm]. split; [by apply walked_skip|done].
  - split; [by apply walked_start, Forall_forall|done].
  - split; [|done]. intros r' Hin.
    by eapply (walked_end moveRocket (λ r, r ∈ rockets (stateRef w))).
Qed.

Lemma missiles_walked Math_random w :
  let w1 := forEach (λ w, missiles (stateRef w)) (updateMissile Math_random) w in
  (∀ m', m' ∈ missiles (stateRef w1) →
     m' ∈ missiles (stateRef w)
     ∨ ∃ m, m ∈ missiles (stateRef w) ∧ m' = moveMissile m)
  ∧ rockets (stateRef w1) = rockets (stateRef w).
Proof.
  cbv zeta. unfold forEach.
  pose proof
    (forEach_from_indexed (λ w, missiles (stateRef w))
       (updateMissile Math_random)
       (λ k w', walked moveMissile (λ m, m ∈ missiles (stateRef w)) k
                  (missiles (stateRef w'))
                ∧ rockets (stateRef w') = rockets (stateRef w))) as Hloop.
  destruct (Hloop) with (len := length (missiles (stateRef w)))
                        (k := 0%nat) (s := w) as [Hw Hm].
  - intros m k w' Hk [Hw Hm]. unfold updateMissile. cbv zeta.
    destruct (Qle_bool 1 _).
    + unfold random. cbv beta iota. simpl. split; [|done].
      rewrite delete_insert_same. by apply walked_delete.
    + simpl. split; [|done]. by apply walked_insert.
  - intros k w' _ [Hw Hm]. split; [by apply walked_skip|done].
  - split; [by apply walked_start, Forall_forall|done].
  - split; [|done]. intros m' Hin.
    by eapply (walked_end moveMissile (λ m, m ∈ missiles (stateRef w))).
Qed.

(** The loop over the explosions takes rockets away and touches no
    missile. *)
Lemma explosions_loop_projectiles Math_random w :
  let w1 :=
    forEach (λ w, explosions (stateRef w)) (updateExplosion Math_random) w in
  (∀ r, r ∈ rockets (stateRef w1) → r ∈ rockets (stateRef w))
  ∧ missiles (stateRef w1) = missiles (stateRef w).
Proof.
  cbv zeta.
  apply (forEach_invariant _ _
           (λ w', (∀ r, r ∈ rockets (stateRef w') → r ∈ rockets (stateRef w))
                  ∧ missiles (stateRef w') = missiles (stateRef w)));
    [|done].
  intros e k w' _ Hw'. unfold updateExplosion. cbv zeta.
  destruct (finished (pulse e)); [done|].
  apply (forEach_invariant _ _
           (λ w', (∀ r, r ∈ rockets (stateRef w') → r ∈ rockets (stateRef w))
                  ∧ missiles (stateRef w') = missiles (stateRef w)));
    [|done].
  intros r rIdx w'' _ [Hr Hm]. unfold collide. cbv zeta.
  destruct (sqrt_ltb _ _); [|done].
  unfold random. cbv beta iota. simpl. split; [|done].
  intros r0 Hin%list_elem_of_delete_inv. auto.
Qed.

(** X10.  In one frame no projectile is moved twice: every rocket of the
    state after a frame is a rocket of the state before it, unchanged or
    after exactly one step of its own speed, or the rocket spawned by the
    frame; every missile is a missile of the state before it, unchanged or
    after exactly one step. *)
Theorem no_projectile_moves_twice (Math_random : nat → Q) (w : World) :
  (∀ r', r' ∈ rockets (stateRef (update Math_random w)) →
     r' ∈ rockets (stateRef w)
     ∨ (∃ r, r ∈ rockets (stateRef w) ∧ r' = moveRocket r)
     ∨ (r_progress r' = 0 ∧ r_pos r' = r_start r'))
  ∧ (∀ m', m' ∈ missiles (stateRef (update Math_random w)) →
       m' ∈ missiles (stateRef w)
       ∨ ∃ m, m ∈ missiles (stateRef w) ∧ m' = moveMissile m).
Proof.
  unfold update. destruct (negb _); [split; intros; by left|]. cbv zeta.
  set (w1 := forEach _ (updateRocket Math_random) w).
  set (w2 := forEach _ (updateMissile Math_random) w1).
  set (w3 := forEach _ (updateExplosion Math_random) w2).
  destruct (rockets_walked Math_random w) as [Hr1 Hm1].
  destruct (missiles_walked Math_random w1) as [Hm2 Hr2].
  destruct (explosions_loop_projectiles Math_random w2) as [Hr3 Hm3].
  fold w1 in Hr1, Hm1. fold w2 in Hm2, Hr2. fold w3 in Hr3, Hm3.
  destruct (checkOutcome_settled Math_random w3)
    as (_ & Hms & _ & _ & _ & _ & Hrs).
  split.
  - assert (∀ r', r' ∈ rockets (stateRef w3) →
              r' ∈ rockets (stateRef w)
              ∨ ∃ r, r ∈ rockets (stateRef w) ∧ r' = moveRocket r) as Hold.
    { intros r' Hin. apply Hr1. rewrite <- Hr2. by apply Hr3. }
    destruct Hrs as [-> | (i & j & k & target & ->)].
    + intros r' Hin. destruct (Hold r' Hin); auto.
    + intros r' [Hin | ->%list_elem_of_singleton]%elem_of_app.
      * destruct (Hold r' Hin); auto.
      * right. right. done.
  - rewrite Hms, Hm3. intros m' Hin.
    destruct (Hm2 m' Hin) as [Hin1 | (m & Hin1 & ->)].
    + left. by rewrite <- Hm1.
    + right. exists m. split; [by rewrite <- Hm1 | done].
Qed.

(** The loops over rockets and missiles only push fresh explosions. *)
Lemma explosions_pushed Math_random w :
  let w2 :=
    forEach (λ w, missiles (stateRef w)) (updateMissile Math_random)
      (forEach (λ w, rockets (stateRef w)) (updateRocket Math_random) w) in
  Forall (λ e, e ∈ explosions (stateRef w) ∨ fresh e)
    (explosions (stateRef w2)).
Proof.
  cbv zeta.
  set (P := λ w' : World,
         Forall (λ e, e ∈ explosions (stateRef w) ∨ fresh e)
           (explosions (stateRef w'))).
  apply (forEach_invariant _ _ P).
  { intros m k w' _ Hw'. unfold P, updateMissile in *. cbv zeta.
    destruct (Qle_bool 1 _); [|done].
    unfold random. cbv beta iota. simpl.
    apply Forall_app. split; [done|].
    constructor; [right; by eexists _, _, _ | constructor]. }
  apply (forEach_invariant _ _ P).
  { intros r k w' _ Hw'. unfold P, updateRocket in *. cbv zeta.
    destruct (Qle_bool 1 _); [|done].
    unfold random. cbv beta iota. simpl.
    apply Forall_app. split; [done|].
    constructor; [right; by eexists _, _, _ | constructor]. }
  unfold P. by apply Forall_forall; left.
Qed.

Lemma explosions_walked Math_random (before : Explosion → Prop) w :
  (∀ e, fresh e → before e) →
  Forall before (explosions (stateRef w)) →
  ∀ e', e' ∈ explosions
               (stateRef (forEach (λ w, explosions (stateRef w))
                            (updateExplosion Math_random) w)) →
        before e' ∨ ∃ e, before e ∧ e' = pulse e.
Proof.
  intros Hfresh Hall e' Hin. unfold forEach in Hin.
  eapply (walked_end pulse before); [|exact Hin].
  apply (forEach_from_indexed (λ w, explosions (stateRef w))
           (updateExplosion Math_random)
           (λ k w', walked pulse before k (explosions (stateRef w')))).
  - intros e k w' Hk Hw. unfold updateExplosion. cbv zeta.
    destruct (finished (pulse e)).
    + simpl. rewrite delete_insert_same. by apply walked_delete.
    + apply (forEach_invariant _ _
               (λ w'', walked pulse before (S k) (explosions (stateRef w'')))).
      * intros r rIdx w'' _ Hw''. unfold collide. cbv zeta.
        destruct (sqrt_ltb _ _); [|done].
        unfold random. cbv beta iota. simpl.
        apply walked_push; [|done]. apply Hfresh. by eexists _, _, _.
      * simpl. by apply walked_insert.
  - intros k w' _ Hw. by apply walked_skip.
  - by apply walked_start.
Qed.

(** X11.  In one frame no explosion is pulsed twice: every explosion of
    the state after a frame is an explosion of the state before it,
    unchanged or after exactly one change of its radius, or an explosion
    pushed in that frame, as pushed or after one change of its radius. *)
Theorem no_explosion_pulses_twice
    (Math_random : nat → Q) (w : World) (e' : Explosion) :
  e' ∈ explosions (stateRef (update Math_random w)) →
  e' ∈ explosions (stateRef w)
  ∨ (∃ e, e ∈ explosions (stateRef w) ∧ e' = pulse e)
  ∨ (∃ id pos m, e' = newExplosion id pos m)
  ∨ (∃ id pos m, e' = pulse (newExplosion id pos m)).
Proof.
  unfold update. destruct (negb _); [by left|]. cbv zeta.
  set (w2 := forEach _ (updateMissile Math_random) _).
  destruct (checkOutcome_settled Math_random
              (forEach (λ w, explosions (stateRef w))
                 (updateExplosion Math_random) w2))
    as (_ & _ & -> & _).
  intros Hin.
  destruct (explosions_walked Math_random
              (λ e, e ∈ explosions (stateRef w) ∨ fresh e) w2
              ltac:(by right) (explosions_pushed Math_random w) e' Hin)
    as [[?|?] | (e & [?|(id & pos & m & ->)] & ->)]; eauto 10.
Qed.

Lemma no_explosion_pulses_twice_witness :
  let w := mkWorld crowded 0 in
  swelling ∈ explosions (stateRef w)
  ∨ (∃ e, e ∈ explosions (stateRef w) ∧ swelling = pulse e)
  ∨ (∃ id pos m, swelling = newExplosion id pos m)
  ∨ (∃ id pos m, swelling = pulse (newExplosion id pos m)).
Proof.
  apply (no_explosion_pulses_twice quiet (mkWorld crowded 0) swelling).
  apply list_elem_of_here.
Defined.

(** ** Sessions as the page allows them *)

Lemma guided_invariant Math_random (P : World → Prop) :
  P boot →
  (∀ w a, offered (status (stateRef w)) a = true → P w →
          P (perform Math_random w a)) →
  ∀ acts, guided Math_random acts = true → P (play Math_random acts).
Proof.
  intros H0 Hstep acts. unfold guided, play. generalize boot H0.
  induction acts as [|a acts IH]; intros w Hw; simpl; [done|].
  intros [Ho Hg]%andb_true_iff. apply IH; [|done]. by apply Hstep.
Qed.

Lemma defended_forallb st :
  forallb t_destroyed (turrets st) = false → defended st.
Proof.
  unfold defended. induction (turrets st) as [|t ts IH]; simpl; [done|].
  destruct (t_destroyed t) eqn:E; simpl.
  - intros (t' & Hin & Hd)%IH. exists t'. split; [by right|done].
  - intros _. exists t. split; [by left|done].
Qed.

Lemma defended_same st st' :
  map t_destroyed (turrets st') = map t_destroyed (turrets st) →
  defended st → defended st'.
Proof.
  unfold defended. intros E (t & [i Hi]%list_elem_of_lookup & Hd).
  assert (map t_destroyed (turrets st') !! i = Some false) as H.
  { by rewrite E, lookup_map, Hi, <- Hd. }
  rewrite lookup_map in H. destruct (turrets st' !! i) as [t'|] eqn:Hi';
    [|done].
  exists t'. split; [by eapply list_elem_of_lookup_2|]. by injection H.
Qed.

(** After the three loops of a frame that began with a turret alive, a
    turret is alive or an explosion is there. *)
Lemma loops_defended Math_random w :
  defended (stateRef w) →
  let w3 :=
    forEach (λ w, explosions (stateRef w)) (updateExplosion Math_random)
      (forEach (λ w, missiles (stateRef w)) (updateMissile Math_random)
         (forEach (λ w, rockets (stateRef w)) (updateRocket Math_random) w))
  in defended (stateRef w3) ∨ explosions (stateRef w3) ≠ [].
Proof.
  intros Hd. cbv zeta.
  set (w2 := forEach _ (updateMissile Math_random) _).
  assert (defended (stateRef w2) ∨ smoking 0 (stateRef w2)) as H2.
  { subst w2.
    apply (forEach_invariant _ _
             (λ w', defended (stateRef w') ∨ smoking 0 (stateRef w'))).
    { intros m k w' _ Hw'. unfold updateMissile. cbv zeta.
      destruct (Qle_bool 1 _); [|done].
      unfold random. cbv beta iota. simpl.
      destruct Hw' as [?|(i & e & Hi & Hf & Hg)]; [by left|right].
      exists i, e. split; [|done]. simpl.
      rewrite lookup_app_l; [done|]. by eapply lookup_lt_Some. }
    apply (forEach_invariant _ _
             (λ w', defended (stateRef w') ∨ smoking 0 (stateRef w')));
      [|by left].
    intros r k w' _ Hw'. unfold updateRocket. cbv zeta.
    destruct (Qle_bool 1 _); [|done].
    unfold random. cbv beta iota. simpl. right.
    exists (length (explosions (stateRef w'))), (newExplosion 
      (Math_random (drawn w')) (r_target (moveRocket r)) EXPLOSION_MAX_RADIUS).
    split; [|by split; [|right]]. simpl.
    by rewrite lookup_app_r, Nat.sub_diag. }
  set (w3 := forEach _ (updateExplosion Math_random) w2).
  assert (defended (stateRef w3)
          ∨ smoking (length (explosions (stateRef w2)) + 0) (stateRef w3))
    as [?|(i & e & Hi & _)]; [|by left|].
  - subst w3. unfold forEach.
    apply (forEach_from_indexed (λ w, explosions (stateRef w))
             (updateExplosion Math_random)
             (λ k w', defended (stateRef w') ∨ smoking k (stateRef w')));
      [| |exact H2].
    + intros e k w' Hk Hw'. unfold updateExplosion. cbv zeta.
      assert (∀ w'' : World,
                defended (stateRef w'') ∨ smoking (S k) (stateRef w'') →
                defended
                  (stateRef (forEach (λ w, rockets (stateRef w))
                               (collide Math_random (pulse e)) w''))
                ∨ smoking (S k)
                    (stateRef (forEach (λ w, rockets (stateRef w))
                                 (collide Math_random (pulse e)) w'')))
        as Hinner.
      { intros w''.
        apply (forEach_invariant _ _
                 (λ w, defended (stateRef w) ∨ smoking (S k) (stateRef w))).
        intros r rIdx w0 _ Hw0. unfold collide. cbv zeta.
        destruct (sqrt_ltb _ _); [|done].
        unfold random. cbv beta iota. simpl.
        destruct Hw0 as [?|(i & e0 & Hi & Hf & Hg)]; [by left|right].
        exists i, e0. split; [|done]. simpl.
        rewrite lookup_app_l; [done|]. by eapply lookup_lt_Some. }
      destruct Hw' as [Hdef|(i & e0 & Hi & Hf & Hg)].
      { destruct (finished (pulse e)); [by left|]. apply Hinner. by left. }
      destruct (decide (i = k)) as [->|Hne].
      * rewrite Hk in Hi. injection Hi as <-.
        destruct Hg as [?|Hg]; [lia|].
        assert (finished (pulse e) = false) as Hfin.
        { unfold pulse. by rewrite Hg. }
        rewrite Hfin. apply Hinner. right. exists k, (pulse e).
        split; [|split; [done|left; lia]]. simpl.
        apply list_lookup_insert_eq. by eapply lookup_lt_Some.
      * destruct (finished (pulse e)).
        -- right. unfold smoking. simpl. rewrite delete_insert_same.
           destruct (decide (i < k)%nat) as [Hlt|Hge].
           ++ exists i, e0.
              split; [by rewrite list_lookup_delete_lt|].
              split; [done|left; lia].
           ++ exists (i - 1)%nat, e0.
              split; [|split; [done|]].
              ** rewrite list_lookup_delete_ge by lia.
                 by replace (S (i - 1)) with i by lia.
              ** destruct Hg as [?|?]; [lia|by right].
        -- apply Hinner. right. exists i, e0.
           split; [|split; [done|]].
           ++ simpl. by rewrite list_lookup_insert_ne.
           ++ destruct Hg as [?|?]; [left; lia|by right].
    + intros k w' _ [?|(i & e & Hi & Hf & Hg)]; [by left|right].
      exists i, e. split; [done|]. split; [done|].
      destruct Hg as [?|?]; [left; lia|by right].
  - right. intros Hnil. by rewrite Hnil in Hi.
Qed.

Lemma update_defended Math_random w :
  status (stateRef w) = PLAYING → defended (stateRef w) →
  status (stateRef (update Math_random w)) = PLAYING
  ∨ status (stateRef (update Math_random w)) = ROUND_END →
  defended (stateRef (update Math_random w)).
Proof.
  intros Hp Hd. pose proof (loops_defended Math_random w Hd) as H3.
  cbv zeta in H3. unfold update. rewrite bool_decide_eq_true_2 by done.
  simpl negb. cbv iota zeta.
  set (w3 := forEach _ (updateExplosion Math_random) _) in *.
  assert (status (stateRef w3) = PLAYING) as Hp3.
  { destruct (standing_evolves _ _ (loops_evolve Math_random w)) as (Hs & _).
    unfold w3. by rewrite Hs. }
  assert (verdict (stateRef w3) = PLAYING ∨ verdict (stateRef w3) = ROUND_END
          → defended (stateRef w3)) as Hv.
  { unfold verdict. destruct (WIN_SCORE <=? _)%Z; [by intros [?|?]|].
    destruct (roundOver (stateRef w3)) eqn:Hr.
    - apply roundOver_true in Hr as (_ & _ & He).
      intros _. by destruct H3.
    - destruct (forallb _ _) eqn:Ha; [by intros [?|?]|].
      intros _. by apply defended_forallb. }
  destruct (checkOutcome_cases Math_random w3 Hp3)
    as [-> | (Hvp & Hn & ->)].
  - simpl. intros Hs. by eapply defended_same; [|apply Hv].
  - intros _.
    destruct (spawnRocket_cases Math_random
                (mkWorld (stateRef w3) (S (drawn w3))) Hp3 Hn)
      as [-> | (target & _ & ->)]; simpl;
      (eapply defended_same; [|apply Hv; by left]); done.
Qed.

Lemma tended_perform Math_random w a :
  offered (status (stateRef w)) a = true →
  (status (stateRef w) = PLAYING ∨ status (stateRef w) = ROUND_END →
   defended (stateRef w)) →
  status (stateRef (perform Math_random w a)) = PLAYING
  ∨ status (stateRef (perform Math_random w a)) = ROUND_END →
  defended (stateRef (perform Math_random w a)).
Proof.
  intros Ho Hd. destruct a as [| |click|]; simpl in *.
  - intros _. exists (mkTurret (mkPoint 50 (CANVAS_HEIGHT - 40)) 10 10 false).
    split; [apply list_elem_of_here|done].
  - intros _. apply bool_decide_eq_true in Ho.
    eapply (defended_same (stateRef w)); [|apply Hd; by right].
    simpl. rewrite map_map. apply map_ext. intros t. unfold refill.
    by destruct (t_destroyed t) eqn:E.
  - destruct (decide (status (stateRef w) = PLAYING)) as [Hp|Hp];
      [|by rewrite handleCanvasClick_idle].
    destruct (handleCanvasClick_cases Math_random click w Hp)
      as [[_ ->] | (j & t & (Hj & _) & ->)]; [done|].
    intros _. eapply (defended_same (stateRef w)); [|apply Hd; by left].
    simpl. by apply map_insert_same with (a := t).
  - destruct (decide (status (stateRef w) = PLAYING)) as [Hp|Hp].
    + apply update_defended; [done|]. apply Hd. by left.
    + by destruct (update_cases Math_random w) as [[_ ->] | (? & _)].
Qed.

(** X12.  In a session as the page allows it, a game that is in play or
    between two rounds has a turret alive: when the last turret falls the
    frame ends in [LOST] or [WON], never in [ROUND_END] or [PLAYING]. *)
Theorem guided_play_is_defended
    (Math_random : nat → Q) (acts : list Action) :
  guided Math_random acts = true →
  let st := stateRef (play Math_random acts) in
  status st = PLAYING ∨ status st = ROUND_END →
  ∃ t, t ∈ turrets st ∧ t_destroyed t = false.
Proof.
  intros Hg. cbv zeta.
  apply (guided_invariant Math_random
           (λ w, status (stateRef w) = PLAYING
                 ∨ status (stateRef w) = ROUND_END →
                 defended (stateRef w))); [|intros w a; apply tended_perform|done].
  by intros [?|?].
Qed.

Lemma guided_play_is_defended_witness :
  let st := stateRef (play late_wave (first_round ++ [NextRound; Frame])) in
  ∃ t, t ∈ turrets st ∧ t_destroyed t = false.
Proof.
  apply (guided_play_is_defended late_wave
           (first_round ++ [NextRound; Frame])).
  - vm_compute. reflexivity.
  - left. vm_compute. reflexivity.
Defined.

(** ** The size of a wave *)

(** A frame never raises the number of rockets in the air plus the rockets
    still to spawn. *)
Lemma update_budget Math_random w :
  (Z.of_nat (length (rockets (stateRef (update Math_random w))))
   + rocketsToSpawn (stateRef (update Math_random w))
   <= Z.of_nat (length (rockets (stateRef w))) + rocketsToSpawn (stateRef w))%Z.
Proof.
  destruct (decide (status (stateRef w) = PLAYING)) as [Hp|Hp];
    [|destruct (update_cases Math_random w) as [[_ ->] | (? & _)]; done].
  destruct (update_playing Math_random w Hp) as (w' & Hev & Hp' & ->).
  destruct (shot_down_evolves _ _ Hev) as (k & _ & Hl).
  destruct (standing_evolves _ _ Hev) as (_ & _ & Hn).
  destruct (checkOutcome_cases Math_random w' Hp')
    as [-> | (_ & Hpos & ->)]; [simpl; lia|].
  destruct (spawnRocket_cases Math_random
              (mkWorld (stateRef w') (S (drawn w'))) Hp' Hpos)
    as [-> | (target & _ & ->)]; simpl; [lia|].
  rewrite length_app. simpl. lia.
Qed.

(** X13.  In a session as the page allows it, the rockets in the air and
    the rockets still to spawn together never exceed the size of the wave:
    3 in round 1, 3 plus the round from round 2 on. *)
Theorem wave_is_bounded (Math_random : nat → Q) (acts : list Action) :
  guided Math_random acts = true →
  let st := stateRef (play Math_random acts) in
  (Z.of_nat (length (rockets st)) + rocketsToSpawn st
   <= (if (round st =? 1)%Z then 3 else 3 + round st))%Z.
Proof.
  intros Hg. cbv zeta.
  assert (told (stateRef (play Math_random acts))
          ∧ counted (stateRef (play Math_random acts))
          ∧ (Z.of_nat (length (rockets (stateRef (play Math_random acts))))
             + rocketsToSpawn (stateRef (play Math_random acts))
             <= waveSize (stateRef (play Math_random acts)))%Z)
    as (_ & _ & H); [|exact H].
  apply (guided_invariant Math_random
           (λ w, told (stateRef w) ∧ counted (stateRef w)
                 ∧ (Z.of_nat (length (rockets (stateRef w)))
                    + rocketsToSpawn (stateRef w)
                    <= waveSize (stateRef w))%Z)); [| |done].
  { split; [done|]. split; [unfold counted; simpl; lia|done]. }
  intros w a Ho (Ht & Hc & Hb).
  split; [by apply told_perform|]. split; [by apply counted_perform|].
  destruct a as [| |click|]; simpl in *.
  - done.
  - apply bool_decide_eq_true in Ho. unfold told in Ht. rewrite Ho in Ht.
    destruct Ht as (_ & _ & -> & _). destruct Hc as (Hr & _).
    unfold waveSize. simpl.
    replace (round (stateRef w) + 1 =? 1)%Z with false
      by (symmetry; apply Z.eqb_neq; lia).
    lia.
  - destruct (decide (status (stateRef w) = PLAYING)) as [Hp|Hp];
      [|by rewrite handleCanvasClick_idle].
    by destruct (handleCanvasClick_cases Math_random click w Hp)
      as [[_ ->] | (j & t & _ & ->)].
  - pose proof (update_budget Math_random w) as Hu.
    assert (round (stateRef (update Math_random w)) = round (stateRef w))
      as Hr.
    { destruct (update_cases Math_random w)
        as [[_ ->] | (_ & w' & Hev & ->)]; [done|].
      destruct (checkOutcome_settled Math_random w')
        as (_ & _ & _ & _ & _ & -> & _).
      by destruct (standing_evolves _ _ Hev) as (_ & -> & _). }
    unfold waveSize in *. rewrite Hr. lia.
Qed.

Lemma wave_is_bounded_witness :
  let st := stateRef (play late_wave (first_round ++ [NextRound; Frame])) in
  (Z.of_nat (length (rockets st)) + rocketsToSpawn st
   <= (if (round st =? 1)%Z then 3 else 3 + round st))%Z.
Proof.
  apply (wave_is_bounded late_wave (first_round ++ [NextRound; Frame])).
  vm_compute. reflexivity.
Defined.

(** * Properties of the page *)

(** ** Clicks aim where the pointer is *)

Lemma toGrid_mono a b : a <= b → toGrid a <= toGrid b.
Proof.
  intros H. unfold toGrid. apply Qmult_le_compat_r; [|discriminate].
  rewrite <- Zle_Qle. apply Qfloor_resp_le. lra.
Qed.

Lemma scaled_mono (fl : Q → Q) (d d' side full : Q) :
  (∀ a b, a <= b → fl a <= fl b) → fl 0 == 0 →
  0 < side → 0 <= full → 0 <= d → d <= d' →
  0 <= fl (fl d * fl (full / side))
  ∧ fl (fl d * fl (full / side)) <= fl (fl d' * fl (full / side)).
Proof.
  intros Hmono Hzero Hs Hf H0 Hd.
  assert (0 <= fl (full / side)) as Hq.
  { rewrite <- Hzero. apply Hmono. apply Qle_shift_div_l; [done|]. lra. }
  assert (0 <= fl d) as Hd0 by (rewrite <- Hzero; by apply Hmono).
  pose proof (Hmono _ _ Hd) as Hdd.
  split.
  - rewrite <- Hzero at 1. apply Hmono. nra.
  - apply Hmono. nra.
Qed.

Lemma scaled_zero (fl : Q → Q) (d s : Q) :
  (∀ a b, a <= b → fl a <= fl b) → fl 0 == 0 → d == 0 →
  fl (fl d * s) == 0.
Proof.
  intros Hmono Hzero Hd.
  assert (∀ a b, a == b → fl a == fl b) as Hext.
  { intros a b E. apply Qle_antisym; apply Hmono; rewrite E; apply Qle_refl. }
  rewrite (Hext _ 0); [exact Hzero|].
  rewrite (Hext d 0 Hd), Hzero. ring.
Qed.

(** X14.  For every rounding that keeps the order of numbers and keeps 0,
    a displayed canvas with positive sides and a mouse position or first
    touch not left of it and not above it: the point the pointer is scaled
    to has coordinates that are not negative; a pointer further right or
    further down is scaled to a point that is not further left or further
    up; the top left corner of the displayed canvas is taken to (0, 0).
    Without rounding the scaling is the map that takes the displayed
    rectangle onto the 800 x 600 field, the point at the fractions (k, l)
    of its sides to (800 k, 600 l); nothing is said of where a rounding
    takes the right and the bottom edge.  In a game in play with an eligible turret the handler fires at that
    point from the turret it chooses for it: the state afterwards is the
    one of [fired], one missile appended behind the missiles there were,
    one ammo taken.  Outside [PLAYING], and with no eligible turret, the
    state is unchanged; so it is without a canvas, and for a touch event
    without touches. *)
Theorem handleCanvasEvent_fires_at_pointer
    (Math_random : nat → Q) (fl : Q → Q) (rect : DOMRect) (e : PointerEvent)
    (w : World) (clientX clientY : Q) :
  (∀ a b, a <= b → fl a <= fl b) → fl 0 == 0 →
  0 < rect_width rect → 0 < rect_height rect →
  clientPosition e = Some (clientX, clientY) →
  rect_left rect <= clientX → rect_top rect <= clientY →
  let click := canvasPoint fl rect clientX clientY in
  (0 <= x click ∧ 0 <= y click)
  ∧ (∀ dx dy, 0 <= dx → 0 <= dy →
       x click <= x (canvasPoint fl rect (clientX + dx) (clientY + dy))
       ∧ y click <= y (canvasPoint fl rect (clientX + dx) (clientY + dy)))
  ∧ (x (canvasPoint fl rect (rect_left rect) (rect_top rect)) == 0
     ∧ y (canvasPoint fl rect (rect_left rect) (rect_top rect)) == 0)
  ∧ (∀ k l,
       let exact := canvasPoint (λ q, q) rect
                      (rect_left rect + k * rect_width rect)
                      (rect_top rect + l * rect_height rect) in
       x exact == k * CANVAS_WIDTH ∧ y exact == l * CANVAS_HEIGHT)
  ∧ (status (stateRef w) = PLAYING →
     (∃ t, t ∈ turrets (stateRef w) ∧ eligible t) →
     ∃ j t, chosen (x click) (turrets (stateRef w)) j t
            ∧ handleCanvasEvent Math_random fl (Some rect) e w
              = fired Math_random click w j t)
  ∧ (status (stateRef w) ≠ PLAYING
     ∨ (∀ t, t ∈ turrets (stateRef w) → ¬ eligible t) →
     handleCanvasEvent Math_random fl (Some rect) e w = w)
  ∧ handleCanvasEvent Math_random fl None e w = w
  ∧ handleCanvasEvent Math_random fl (Some rect) (TouchEvent []) w = w.
Proof.
  intros Hmono Hzero Hw Hh He Hx Hy. cbv zeta.
  split; [|split; [|split; [|split; [|split; [|split; [|split]]]]]].
  - simpl. split.
    + apply (scaled_mono fl _ (clientX - rect_left rect)); try done;
        unfold CANVAS_WIDTH; lra.
    + apply (scaled_mono fl _ (clientY - rect_top rect)); try done;
        unfold CANVAS_HEIGHT; lra.
  - intros dx dy Hdx Hdy. simpl. split.
    + apply scaled_mono; try done; unfold CANVAS_WIDTH; lra.
    + apply scaled_mono; try done; unfold CANVAS_HEIGHT; lra.
  - simpl. split; apply scaled_zero; try done; ring.
  - intros k l. simpl. split; field; lra.
  - intros Hp (t & Hin & Hel). unfold handleCanvasEvent. rewrite He.
    rewrite bool_decide_eq_true_2 by done. simpl negb. cbv iota.
    destruct (handleCanvasClick_cases Math_random
                (canvasPoint fl rect clientX clientY) w Hp)
      as [[Hnone _] | Hfire]; [|exact Hfire].
    destruct (proj1 (Forall_forall _ _) Hnone t Hin Hel).
  - intros Hidle. unfold handleCanvasEvent. rewrite He.
    destruct (decide (status (stateRef w) = PLAYING)) as [Hp|Hp];
      [|by rewrite bool_decide_eq_false_2].
    rewrite bool_decide_eq_true_2 by done. simpl negb. cbv iota.
    destruct Hidle as [Hn | Hnone]; [done|].
    destruct (handleCanvasClick_cases Math_random
                (canvasPoint fl rect clientX clientY) w Hp)
      as [[_ Heq] | (j & t & (Hj & Hel & _) & _)]; [exact Heq|].
    destruct (Hnone t (list_elem_of_lookup_2 _ _ _ Hj) Hel).
  - unfold handleCanvasEvent. by destruct (negb _).
  - unfold handleCanvasEvent. by destruct (negb _).
Qed.

(** A canvas shown at half its size, 400 x 300 at (10, 20), and a touch in
    its middle, in a new game, with the rounding [toGrid]. *)
Lemma handleCanvasEvent_fires_at_pointer_witness :
  let rect := mkRect 10 20 400 300 in
  let e := TouchEvent [(210, 170); (300, 200)] in
  let w := mkWorld initGame 0 in
  let click := canvasPoint toGrid rect 210 170 in
  (0 <= x click ∧ 0 <= y click)
  ∧ (∀ dx dy, 0 <= dx → 0 <= dy →
       x click <= x (canvasPoint toGrid rect (210 + dx) (170 + dy))
       ∧ y click <= y (canvasPoint toGrid rect (210 + dx) (170 + dy)))
  ∧ (x (canvasPoint toGrid rect (rect_left rect) (rect_top rect)) == 0
     ∧ y (canvasPoint toGrid rect (rect_left rect) (rect_top rect)) == 0)
  ∧ (∀ k l,
       let exact := canvasPoint (λ q, q) rect
                      (rect_left rect + k * rect_width rect)
                      (rect_top rect + l * rect_height rect) in
       x exact == k * CANVAS_WIDTH ∧ y exact == l * CANVAS_HEIGHT)
  ∧ (status (stateRef w) = PLAYING →
     (∃ t, t ∈ turrets (stateRef w) ∧ eligible t) →
     ∃ j t, chosen (x click) (turrets (stateRef w)) j t
            ∧ handleCanvasEvent quiet toGrid (Some rect) e w
              = fired quiet click w j t)
  ∧ (status (stateRef w) ≠ PLAYING
     ∨ (∀ t, t ∈ turrets (stateRef w) → ¬ eligible t) →
     handleCanvasEvent quiet toGrid (Some rect) e w = w)
  ∧ handleCanvasEvent quiet toGrid None e w = w
  ∧ handleCanvasEvent quiet toGrid (Some rect) (TouchEvent []) w = w.
Proof.
  apply (handleCanvasEvent_fires_at_pointer quiet toGrid
           (mkRect 10 20 400 300) (TouchEvent [(210, 170); (300, 200)])
           (mkWorld initGame 0) 210 170).
  - apply toGrid_mono.
  - reflexivity.
  - reflexivity.
  - reflexivity.
  - reflexivity.
  - discriminate.
  - discriminate.
Defined.

(** On that canvas the scale is 2 in both directions and nothing is
    rounded away: the touch in the middle is answered by the turret in the
    middle, which fires at the middle of the field; a second touch is not
    looked at. *)
Example half_size_canvas_scenario :
  let w := handleCanvasEvent quiet toGrid (Some (mkRect 10 20 400 300))
             (TouchEvent [(210, 170); (300, 200)]) (mkWorld initGame 0) in
  map (λ m, (Qred (x (m_target m)), Qred (y (m_target m))))
    (missiles (stateRef w))
  = [(400, 300)]
  ∧ map ammo (turrets (stateRef w)) = [10; 19; 10]%Z.
Proof. vm_compute. repeat split. Qed.

(** ** The picture *)

Lemma Forall_concat_map {A B} (P : B → Prop) (f : A → list B) (l : list A) :
  Forall (λ a, Forall P (f a)) l → Forall P (concat (map f l)).
Proof.
  induction 1 as [|a l Ha _ IH]; simpl; [constructor|].
  apply Forall_app. by split.
Qed.

Lemma accepted_draw st :
  Forall (λ e, 0 <= radius e) (explosions st) → Forall accepted (draw st).
Proof.
  intros He. unfold draw. repeat apply Forall_app_2.
  - repeat constructor.
  - apply Forall_concat_map, Forall_forall. intros c _. unfold drawCity.
    destruct (negb _); repeat constructor.
  - apply Forall_concat_map, Forall_forall. intros t _. unfold drawTurret.
    destruct (negb _); repeat constructor.
  - apply Forall_concat_map, Forall_forall. intros r _.
    repeat constructor. simpl. discriminate.
  - apply Forall_concat_map, Forall_forall. intros m _. repeat constructor.
  - apply Forall_concat_map. eapply Forall_impl; [exact He|].
    intros e Hr. repeat constructor. exact Hr.
Qed.

(** X15.  In every state of every session the canvas accepts every call
    that [draw] makes: no circle is drawn with a negative radius.  The same
    holds for the picture that [gameLoop] draws after its frame. *)
Theorem draw_is_accepted (Math_random : nat → Q) (acts : list Action) :
  Forall accepted (draw (stateRef (play Math_random acts)))
  ∧ Forall accepted (gameLoop Math_random (play Math_random acts)).2.
Proof.
  assert (∀ hist, Forall accepted (draw (stateRef (play Math_random hist))))
    as H.
  { intros hist. apply accepted_draw.
    destruct (sound_play Math_random hist) as [_ He].
    eapply Forall_impl; [exact He|]. by intros e (? & _). }
  split; [apply H|]. unfold gameLoop. simpl.
  specialize (H (acts ++ [Frame])). unfold play in *.
  by rewrite fold_left_app in H.
Qed.

Lemma maxAmmo_positive st t :
  laid_out st → t ∈ turrets st → (0 < maxAmmo t)%Z.
Proof.
  intros [[_ Ht] | (_ & _ & Hm)] Hin; [rewrite Ht in Hin; by inversion Hin|].
  assert (maxAmmo t ∈ map maxAmmo (turrets st)) as H.
  { apply list_elem_of_In, in_map, list_elem_of_In, Hin. }
  rewrite Hm in H. simpl in H.
  repeat (apply elem_of_cons in H as [-> | H]; [done|]).
  by apply elem_of_nil in H.
Qed.

(** X16.  In every state of every session the ammo bar that [draw] fills
    for a turret is between 0 and 40 wide, the width of its track; it is
    40 wide exactly when the turret has its [maxAmmo], and 0 wide exactly
    when it has no ammo. *)
Theorem ammo_bar_fits (Math_random : nat → Q) (acts : list Action) :
  Forall
    (λ t, (0 <= ammoWidth t ∧ ammoWidth t <= 40)
          ∧ (ammoWidth t == 40 ↔ ammo t = maxAmmo t)
          ∧ (ammoWidth t == 0 ↔ ammo t = 0%Z))
    (turrets (stateRef (play Math_random acts))).
Proof.
  destruct (sound_play Math_random acts) as [Hs _].
  pose proof (laid_out_play Math_random acts) as Hl.
  apply Forall_forall. intros t Hin.
  pose proof (proj1 (Forall_forall _ _) Hs t Hin) as [Ha0 Ha1].
  pose proof (maxAmmo_positive _ t Hl Hin) as Hm.
  unfold ammoWidth.
  assert (0 < inject_Z (maxAmmo t)) as Hmq.
  { change 0 with (inject_Z 0). by rewrite <- Zlt_Qlt. }
  assert (0 <= inject_Z (ammo t)) as Haq.
  { change 0 with (inject_Z 0). by rewrite <- Zle_Qle. }
  assert (inject_Z (ammo t) <= inject_Z (maxAmmo t)) as Hle.
  { by rewrite <- Zle_Qle. }
  set (q := inject_Z (ammo t) / inject_Z (maxAmmo t)).
  assert (inject_Z (maxAmmo t) * q == inject_Z (ammo t)) as Hq.
  { apply Qmult_div_r. lra. }
  assert (0 <= q) as Hq0 by (apply Qle_shift_div_l; [done|lra]).
  assert (q <= 1) as Hq1 by (apply Qle_shift_div_r; [done|lra]).
  split; [split; lra|]. split.
  - split.
    + intros H. assert (q == 1) as H1 by lra. rewrite H1 in Hq.
      apply inject_Z_injective. lra.
    + intros H. rewrite H in Hq.
      assert (q == 1) as H1 by nra. lra.
  - split.
    + intros H. assert (q == 0) as H0 by lra. rewrite H0 in Hq.
      apply inject_Z_injective. change (inject_Z 0) with 0. lra.
    + intros H. rewrite H in Hq. change (inject_Z 0) with 0 in Hq.
      assert (q == 0) as H0 by nra. lra.
Qed.

(** ** The footer *)

Lemma live_count {A} (dead : A → bool) (l k : list A) :
  Forall2 (λ a b, dead a = true → dead b = true) l k →
  (length (filter (λ b, dead b = false) k)
   <= length (filter (λ a, dead a = false) l))%nat.
Proof.
  induction 1 as [|a b l k Hab _ IH]; [done|].
  rewrite !filter_cons.
  destruct (decide (dead a = false)) as [Ha|Ha],
           (decide (dead b = false)) as [Hb|Hb]; simpl; try lia.
  apply not_false_is_true in Ha. rewrite (Hab Ha) in Hb. done.
Qed.

(** X17.  The two counts of the footer, cities online and batteries
    active, never go up except when a new game is started; in every state
    of every session they are at most 6 and 3, the totals the footer
    prints. *)
Theorem footer_counts_only_fall
    (Math_random : nat → Q) (acts : list Action) (a : Action) :
  let w := play Math_random acts in
  (citiesOnline (stateRef w) <= 6 ∧ batteriesActive (stateRef w) <= 3)%nat
  ∧ (a = InitGame
     ∨ (citiesOnline (stateRef (perform Math_random w a))
        <= citiesOnline (stateRef w)
        ∧ batteriesActive (stateRef (perform Math_random w a))
          <= batteriesActive (stateRef w))%nat).
Proof.
  cbv zeta. split.
  - unfold citiesOnline, batteriesActive.
    pose proof (length_filter (λ c, c_destroyed c = false)
                  (cities (stateRef (play Math_random acts)))) as Hc.
    pose proof (length_filter (λ t, t_destroyed t = false)
                  (turrets (stateRef (play Math_random acts)))) as Ht.
    destruct (laid_out_play Math_random acts) as [[Ec Et] | (Ec & Et & _)].
    + rewrite Ec, Et in *. simpl in *. lia.
    + apply (f_equal length) in Ec, Et. rewrite !length_map in Ec, Et.
      simpl in Ec, Et. lia.
  - destruct (persists_perform Math_random (play Math_random acts) a)
      as [-> | [Hc Ht]]; [by left|right].
    unfold citiesOnline, batteriesActive. split.
    + apply (live_count c_destroyed).
      eapply Forall2_impl; [exact Hc|]. by intros ? ? [_ ?].
    + apply (live_count t_destroyed).
      eapply Forall2_impl; [exact Ht|]. by intros ? ? (_ & _ & ?).
Qed.
